(** * rive-pixi: the RiveSprite scene orchestrator

    A shallow embedding of [src/rive_pixi.js].  The sprite object is a record
    with the fields the class defines; its methods are functions on that
    record.  Everything outside the repository (the Rive engine, the Pixi
    host, the animation-frame scheduler, the user callback) is a [World]
    carried inside the sprite state: every call that crosses the boundary is
    appended to a trace, and the little engine state the sprite reads back is
    kept next to it.

    JavaScript numbers are modelled as rationals ([Q]): arithmetic is exact,
    while the class computes in binary64, where a quotient is rounded and a
    division by zero gives an infinity or NaN.  The properties below depend
    on arithmetic only where the two agree: subtracting zero, dividing by
    one, and the difference of a number with itself; otherwise they name the
    expression the code evaluates and do not simplify it. *)

From Stdlib Require Import QArith.
From stdpp Require Import base option list strings gmap.

(** ** Enumerations exported by the module *)

Inductive Fit :=
  | Cover | Contain | Fill | FitWidth | FitHeight | FitNone | ScaleDown.

Inductive Alignment :=
  | Center | TopLeft | TopCenter | TopRight | CenterLeft | CenterRight
  | BottomLeft | BottomCenter | BottomRight.

(** ** Engine data (the shapes of [@rive-app/canvas-advanced-single]) *)

(** [SMIInput.bool], [SMIInput.number], [SMIInput.trigger]. *)
Inductive InputKind := KBool | KNumber | KTrigger.

#[global] Instance InputKind_eq_dec : EqDecision InputKind :=
  ltac:(solve_decision).

Inductive JsValue := VBool (b : bool) | VNum (q : Q).

Record AABB := { minX : Q; minY : Q; maxX : Q; maxY : Q }.

Record Mat2D := { xx : Q; xy : Q; yx : Q; yy : Q; tx : Q; ty : Q }.

(** The immutable scene description parsed from a [.riv] buffer.  A declared
    input is a boolean or a number with its initial value, or a trigger,
    which holds no value.  What the engine keeps when a value is assigned to
    an input (it converts to the input's kind and precision) is the engine's
    business: the description carries it as [idef_write]. *)
Inductive InputDecl :=
  | DeclBool (initial : bool)
  | DeclNumber (initial : Q)
  | DeclTrigger.

Record InputDef := {
  idef_name : string;
  idef_decl : InputDecl;
  idef_write : JsValue -> JsValue
}.

Definition idef_kind (d : InputDef) : InputKind :=
  match idef_decl d with
  | DeclBool _ => KBool
  | DeclNumber _ => KNumber
  | DeclTrigger => KTrigger
  end.

Definition idef_default (d : InputDef) : option JsValue :=
  match idef_decl d with
  | DeclBool b => Some (VBool b)
  | DeclNumber q => Some (VNum q)
  | DeclTrigger => None
  end.

(** What a state machine does when advanced is the engine's business: the
    description carries it as a transition on an opaque core state, returning
    the names of the states that changed. *)
Record StateMachineDef := {
  smd_name : string;
  smd_inputs : list InputDef;
  smd_step : nat -> Q -> nat * list string
}.

Record AnimationDef := { and_name : string }.

Record ArtboardDef := {
  abd_name : string;
  abd_bounds : AABB;
  abd_animations : list AnimationDef;
  abd_stateMachines : list StateMachineDef
}.

Record File := { file_artboards : list ArtboardDef }.

(** Live engine objects.  Each has a handle, its identity on the engine side.

    An instance is made from a description, or from [null] when the name it
    was asked for does not exist.  [sm_nameProperty] and [an_nameProperty]
    are what reading [.name] off the instance gives: the engine's instances
    carry no such property and the class never assigns one, so the
    constructors below leave it [undefined] ([None]). *)
Record Artboard := { ab_handle : nat; ab_def : ArtboardDef }.

Record LinearAnimationInstance := {
  an_handle : nat;
  an_def : option AnimationDef;
  an_nameProperty : option string
}.

Record SMIInput := {
  input_handle : nat;
  input_name : string;
  input_type : InputKind;
  input_write : JsValue -> JsValue
}.

Record StateMachineInstance := {
  sm_handle : nat;
  sm_def : option StateMachineDef;
  sm_nameProperty : option string;
  sm_core : nat;
  sm_changed : list string;
  sm_inputs : list SMIInput
}.

(** The name of the description an instance was made from (empty for
    [null]). *)
Definition an_name (a : LinearAnimationInstance) : string :=
  from_option and_name EmptyString (an_def a).
Definition sm_name (m : StateMachineInstance) : string :=
  from_option smd_name EmptyString (sm_def m).

(** The engine handle [this._rive]: the only engine function whose result the
    sprite stores is [computeAlignment]. *)
Record RiveCanvas := {
  computeAlignment : Fit -> Alignment -> AABB -> AABB -> Mat2D
}.

Record Canvas := { cv_width : Q; cv_height : Q }.

Inductive Texture := TextureEmpty | TextureFromCanvas.

Inductive EventMode := EventAuto | EventStatic.

Inductive JsError := TypeError.

(** ** The world outside the sprite *)

Inductive Event :=
  | ArtboardNew (h : nat) (name : string)
  | ArtboardDelete (h : nat)
  | ArtboardAdvance (h : nat) (elapsed : Q)
  | ArtboardDraw (h : nat)
  | SMNew (h : nat) (description : option string) (ab : nat)
  | SMDelete (h : nat)
  | SMAdvance (h : nat) (elapsed : Q)
  | SMPointerDown (h : nat) (x y : Q)
  | SMPointerUp (h : nat) (x y : Q)
  | SMPointerMove (h : nat) (x y : Q)
  | AnimNew (h : nat) (description : option string) (ab : nat)
  | AnimDelete (h : nat)
  | AnimAdvance (h : nat) (elapsed : Q)
  | AnimApply (h : nat) (mix : Q)
  | InputSet (h : nat) (v : JsValue)
  | TriggerFire (h : nat)
  | RendererClear | RendererSave | RendererRestore | RendererFlush
  | RendererAlign (f : Fit) (a : Alignment) (frame bounds : AABB)
  | RendererDelete
  | FileDelete
  | TextureUpdate
  | SpriteDestroy
  | StateChange (states : list string)
  | RequestFrame (id : nat)
  | CancelFrame (id : nat).

Record World := {
  trace : list Event;
  pending : list nat;
  nextFrame : nat;
  nextHandle : nat;
  input_values : gmap nat JsValue
}.

Definition world0 : World :=
  {| trace := []; pending := []; nextFrame := 1; nextHandle := 1;
     input_values := ∅ |}.

Definition emit (e : Event) (w : World) : World :=
  {| trace := trace w ++ [e]; pending := pending w; nextFrame := nextFrame w;
     nextHandle := nextHandle w; input_values := input_values w |}.

Definition emits (es : list Event) (w : World) : World :=
  {| trace := trace w ++ es; pending := pending w; nextFrame := nextFrame w;
     nextHandle := nextHandle w; input_values := input_values w |}.

(** [requestAnimationFrame(cb)]: the only callback ever registered is
    [renderLoop], so a pending request is just its id.  Ids are positive; the
    engine numbers the requests of one frame from 1 (see [take_pending]). *)
Definition requestAnimationFrame (w : World) : nat * World :=
  let id := nextFrame w in
  (id, {| trace := trace w ++ [RequestFrame id]; pending := pending w ++ [id];
          nextFrame := S id; nextHandle := nextHandle w;
          input_values := input_values w |}).

Definition cancelAnimationFrame (id : nat) (w : World) : World :=
  {| trace := trace w ++ [CancelFrame id];
     pending := List.filter (fun p => negb (Nat.eqb p id)) (pending w);
     nextFrame := nextFrame w; nextHandle := nextHandle w;
     input_values := input_values w |}.

(** A frame begins: the engine takes the pending requests and restarts its
    id counter. *)
Definition take_pending (w : World) : list nat * World :=
  (pending w, {| trace := trace w; pending := []; nextFrame := 1;
                 nextHandle := nextHandle w; input_values := input_values w |}).

Definition fresh (w : World) : nat * World :=
  let h := nextHandle w in
  (h, {| trace := trace w; pending := pending w; nextFrame := nextFrame w;
         nextHandle := S h; input_values := input_values w |}).

Definition store_value (h : nat) (v : JsValue) (w : World) : World :=
  {| trace := trace w; pending := pending w; nextFrame := nextFrame w;
     nextHandle := nextHandle w; input_values := <[h := v]> (input_values w) |}.

(** Engine lookups on the scene description.  A missing entry is [null]. *)
Definition artboardByName (f : File) (name : string) : option ArtboardDef :=
  List.find (fun d => String.eqb (abd_name d) name) (file_artboards f).

Definition defaultArtboard (f : File) : option ArtboardDef :=
  head (file_artboards f).

Definition stateMachineByName (ab : Artboard) (name : string) : option StateMachineDef :=
  List.find (fun d => String.eqb (smd_name d) name) (abd_stateMachines (ab_def ab)).

Definition stateMachineByIndex (ab : Artboard) (i : nat) : option StateMachineDef :=
  nth_error (abd_stateMachines (ab_def ab)) i.

Definition animationByName (ab : Artboard) (name : string) : option AnimationDef :=
  List.find (fun d => String.eqb (and_name d) name) (abd_animations (ab_def ab)).

Definition animationByIndex (ab : Artboard) (i : nat) : option AnimationDef :=
  nth_error (abd_animations (ab_def ab)) i.

(** Instantiating an artboard hands out a fresh engine object. *)
Definition instantiateArtboard (d : ArtboardDef) (w : World) : Artboard * World :=
  let '(h, w1) := fresh w in
  ({| ab_handle := h; ab_def := d |}, emit (ArtboardNew h (abd_name d)) w1).

(** [new StateMachineInstance(machine, artboard)]: the instance owns one input
    object per declared input; a boolean or number input holds its declared
    initial value, a trigger holds none.  An instance of [null] has no
    inputs. *)
Fixpoint instantiateInputs (ds : list InputDef) (w : World) : list SMIInput * World :=
  match ds with
  | [] => ([], w)
  | d :: ds' =>
      let '(h, w1) := fresh w in
      let w2 := match idef_default d with
                | Some v => store_value h v w1
                | None => w1
                end in
      let '(ins, w3) := instantiateInputs ds' w2 in
      ({| input_handle := h; input_name := idef_name d;
          input_type := idef_kind d; input_write := idef_write d |} :: ins, w3)
  end.

Definition newStateMachineInstance (d : option StateMachineDef) (ab : Artboard)
  (w : World) : StateMachineInstance * World :=
  let '(h, w1) := fresh w in
  let '(ins, w2) := instantiateInputs (from_option smd_inputs [] d) w1 in
  ({| sm_handle := h; sm_def := d; sm_nameProperty := None; sm_core := 0;
      sm_changed := []; sm_inputs := ins |},
   emit (SMNew h (smd_name <$> d) (ab_handle ab)) w2).

Definition newLinearAnimationInstance (d : option AnimationDef) (ab : Artboard)
  (w : World) : LinearAnimationInstance * World :=
  let '(h, w1) := fresh w in
  ({| an_handle := h; an_def := d; an_nameProperty := None |},
   emit (AnimNew h (and_name <$> d) (ab_handle ab)) w1).

(** [m.advance(elapsed)] and the two read-backs the sprite uses.  An instance
    of [null] has nothing to advance. *)
Definition sm_advance (elapsed : Q) (m : StateMachineInstance) : StateMachineInstance :=
  let '(core, changed) :=
    match sm_def m with
    | Some d => smd_step d (sm_core m) elapsed
    | None => (sm_core m, [])
    end in
  {| sm_handle := sm_handle m; sm_def := sm_def m;
     sm_nameProperty := sm_nameProperty m; sm_core := core;
     sm_changed := changed; sm_inputs := sm_inputs m |}.

Definition stateChangedCount (m : StateMachineInstance) : nat :=
  length (sm_changed m).

Definition stateChangedNameByIndex (m : StateMachineInstance) (i : nat) : string :=
  nth i (sm_changed m) EmptyString.

Definition inputCount (m : StateMachineInstance) : nat := length (sm_inputs m).

Definition input (m : StateMachineInstance) (i : nat) : option SMIInput :=
  nth_error (sm_inputs m) i.

(** ** The sprite object *)

(** A [string | string[]] argument; [undefined] takes the default [[]]. *)
Inductive Names := OneName (name : string) | ManyNames (names : list string).

Definition noNames : Names := ManyNames [].

Record RiveSprite := {
  _animFrame : nat;
  _lastTime : Q;
  _enabled : bool;
  _debug : bool;
  _rive : option RiveCanvas;
  _file : option File;
  _aligned : option Mat2D;
  _renderer : option nat;
  _canvas : option Canvas;
  maxWidth : Q;
  maxHeight : Q;
  fit : Fit;
  align : Alignment;
  animations : list LinearAnimationInstance;
  stateMachines : list StateMachineInstance;
  inputFields : gmap string SMIInput;
  (** whether a callback is installed; calling it is traced as [StateChange],
      and what the callback does in turn is the user's code *)
  onStateChange : bool;
  artboard : option Artboard;
  (** inherited from the Pixi sprite *)
  texture : Texture;
  eventMode : EventMode;
  (** [onpointerdown], [onpointerup], [onpointermove]: installed together *)
  pointerHandlers : bool;
  toLocal : Q * Q -> Q * Q;
  world : World
}.

Definition set_animFrame (v : nat) (s : RiveSprite) : RiveSprite :=
  {| _animFrame := v; _lastTime := _lastTime s; _enabled := _enabled s;
     _debug := _debug s; _rive := _rive s; _file := _file s;
     _aligned := _aligned s; _renderer := _renderer s; _canvas := _canvas s;
     maxWidth := maxWidth s; maxHeight := maxHeight s; fit := fit s;
     align := align s; animations := animations s;
     stateMachines := stateMachines s; inputFields := inputFields s;
     onStateChange := onStateChange s; artboard := artboard s;
     texture := texture s; eventMode := eventMode s;
     pointerHandlers := pointerHandlers s; toLocal := toLocal s;
     world := world s |}.

Definition set_lastTime (v : Q) (s : RiveSprite) : RiveSprite :=
  {| _animFrame := _animFrame s; _lastTime := v; _enabled := _enabled s;
     _debug := _debug s; _rive := _rive s; _file := _file s;
     _aligned := _aligned s; _renderer := _renderer s; _canvas := _canvas s;
     maxWidth := maxWidth s; maxHeight := maxHeight s; fit := fit s;
     align := align s; animations := animations s;
     stateMachines := stateMachines s; inputFields := inputFields s;
     onStateChange := onStateChange s; artboard := artboard s;
     texture := texture s; eventMode := eventMode s;
     pointerHandlers := pointerHandlers s; toLocal := toLocal s;
     world := world s |}.

Definition set_enabled (v : bool) (s : RiveSprite) : RiveSprite :=
  {| _animFrame := _animFrame s; _lastTime := _lastTime s; _enabled := v;
     _debug := _debug s; _rive := _rive s; _file := _file s;
     _aligned := _aligned s; _renderer := _renderer s; _canvas := _canvas s;
     maxWidth := maxWidth s; maxHeight := maxHeight s; fit := fit s;
     align := align s; animations := animations s;
     stateMachines := stateMachines s; inputFields := inputFields s;
     onStateChange := onStateChange s; artboard := artboard s;
     texture := texture s; eventMode := eventMode s;
     pointerHandlers := pointerHandlers s; toLocal := toLocal s;
     world := world s |}.

Definition set_aligned (v : option Mat2D) (s : RiveSprite) : RiveSprite :=
  {| _animFrame := _animFrame s; _lastTime := _lastTime s; _enabled := _enabled s;
     _debug := _debug s; _rive := _rive s; _file := _file s;
     _aligned := v; _renderer := _renderer s; _canvas := _canvas s;
     maxWidth := maxWidth s; maxHeight := maxHeight s; fit := fit s;
     align := align s; animations := animations s;
     stateMachines := stateMachines s; inputFields := inputFields s;
     onStateChange := onStateChange s; artboard := artboard s;
     texture := texture s; eventMode := eventMode s;
     pointerHandlers := pointerHandlers s; toLocal := toLocal s;
     world := world s |}.

Definition set_canvas (v : option Canvas) (s : RiveSprite) : RiveSprite :=
  {| _animFrame := _animFrame s; _lastTime := _lastTime s; _enabled := _enabled s;
     _debug := _debug s; _rive := _rive s; _file := _file s;
     _aligned := _aligned s; _renderer := _renderer s; _canvas := v;
     maxWidth := maxWidth s; maxHeight := maxHeight s; fit := fit s;
     align := align s; animations := animations s;
     stateMachines := stateMachines s; inputFields := inputFields s;
     onStateChange := onStateChange s; artboard := artboard s;
     texture := texture s; eventMode := eventMode s;
     pointerHandlers := pointerHandlers s; toLocal := toLocal s;
     world := world s |}.

Definition set_animations (v : list LinearAnimationInstance) (s : RiveSprite) : RiveSprite :=
  {| _animFrame := _animFrame s; _lastTime := _lastTime s; _enabled := _enabled s;
     _debug := _debug s; _rive := _rive s; _file := _file s;
     _aligned := _aligned s; _renderer := _renderer s; _canvas := _canvas s;
     maxWidth := maxWidth s; maxHeight := maxHeight s; fit := fit s;
     align := align s; animations := v;
     stateMachines := stateMachines s; inputFields := inputFields s;
     onStateChange := onStateChange s; artboard := artboard s;
     texture := texture s; eventMode := eventMode s;
     pointerHandlers := pointerHandlers s; toLocal := toLocal s;
     world := world s |}.

Definition set_stateMachines (v : list StateMachineInstance) (s : RiveSprite) : RiveSprite :=
  {| _animFrame := _animFrame s; _lastTime := _lastTime s; _enabled := _enabled s;
     _debug := _debug s; _rive := _rive s; _file := _file s;
     _aligned := _aligned s; _renderer := _renderer s; _canvas := _canvas s;
     maxWidth := maxWidth s; maxHeight := maxHeight s; fit := fit s;
     align := align s; animations := animations s;
     stateMachines := v; inputFields := inputFields s;
     onStateChange := onStateChange s; artboard := artboard s;
     texture := texture s; eventMode := eventMode s;
     pointerHandlers := pointerHandlers s; toLocal := toLocal s;
     world := world s |}.

Definition set_inputFields (v : gmap string SMIInput) (s : RiveSprite) : RiveSprite :=
  {| _animFrame := _animFrame s; _lastTime := _lastTime s; _enabled := _enabled s;
     _debug := _debug s; _rive := _rive s; _file := _file s;
     _aligned := _aligned s; _renderer := _renderer s; _canvas := _canvas s;
     maxWidth := maxWidth s; maxHeight := maxHeight s; fit := fit s;
     align := align s; animations := animations s;
     stateMachines := stateMachines s; inputFields := v;
     onStateChange := onStateChange s; artboard := artboard s;
     texture := texture s; eventMode := eventMode s;
     pointerHandlers := pointerHandlers s; toLocal := toLocal s;
     world := world s |}.

Definition set_artboard (v : option Artboard) (s : RiveSprite) : RiveSprite :=
  {| _animFrame := _animFrame s; _lastTime := _lastTime s; _enabled := _enabled s;
     _debug := _debug s; _rive := _rive s; _file := _file s;
     _aligned := _aligned s; _renderer := _renderer s; _canvas := _canvas s;
     maxWidth := maxWidth s; maxHeight := maxHeight s; fit := fit s;
     align := align s; animations := animations s;
     stateMachines := stateMachines s; inputFields := inputFields s;
     onStateChange := onStateChange s; artboard := v;
     texture := texture s; eventMode := eventMode s;
     pointerHandlers := pointerHandlers s; toLocal := toLocal s;
     world := world s |}.

Definition set_texture (v : Texture) (s : RiveSprite) : RiveSprite :=
  {| _animFrame := _animFrame s; _lastTime := _lastTime s; _enabled := _enabled s;
     _debug := _debug s; _rive := _rive s; _file := _file s;
     _aligned := _aligned s; _renderer := _renderer s; _canvas := _canvas s;
     maxWidth := maxWidth s; maxHeight := maxHeight s; fit := fit s;
     align := align s; animations := animations s;
     stateMachines := stateMachines s; inputFields := inputFields s;
     onStateChange := onStateChange s; artboard := artboard s;
     texture := v; eventMode := eventMode s;
     pointerHandlers := pointerHandlers s; toLocal := toLocal s;
     world := world s |}.

Definition set_world (v : World) (s : RiveSprite) : RiveSprite :=
  {| _animFrame := _animFrame s; _lastTime := _lastTime s; _enabled := _enabled s;
     _debug := _debug s; _rive := _rive s; _file := _file s;
     _aligned := _aligned s; _renderer := _renderer s; _canvas := _canvas s;
     maxWidth := maxWidth s; maxHeight := maxHeight s; fit := fit s;
     align := align s; animations := animations s;
     stateMachines := stateMachines s; inputFields := inputFields s;
     onStateChange := onStateChange s; artboard := artboard s;
     texture := texture s; eventMode := eventMode s;
     pointerHandlers := pointerHandlers s; toLocal := toLocal s;
     world := v |}.

Definition in_world (f : World -> World) (s : RiveSprite) : RiveSprite :=
  set_world (f (world s)) s.

(** The calls the sprite has made so far. *)
Definition calls (s : RiveSprite) : list Event := trace (world s).

(** ** Results of methods that can fail

    A method either returns, or a JavaScript exception leaves it with the
    state reached so far. *)

Inductive Outcome :=
  | Returns (s : RiveSprite)
  | Throws (e : JsError) (s : RiveSprite).

Definition andThen (o : Outcome) (k : RiveSprite -> Outcome) : Outcome :=
  match o with
  | Returns s => k s
  | Throws e s => Throws e s
  end.

Notation "o ';;;' k" := (andThen o k) (at level 61, left associativity).

(** [names.map(body)]: the callback runs on each element in order. *)
Fixpoint forEachName (body : string -> RiveSprite -> Outcome) (names : list string)
  (s : RiveSprite) : Outcome :=
  match names with
  | [] => Returns s
  | n :: rest => body n s ;;; forEachName body rest
  end.

Definition final (o : Outcome) : RiveSprite :=
  match o with Returns s => s | Throws _ s => s end.

(** JavaScript truthiness of the two primitive kinds the class tests. *)
Definition truthy_num (q : Q) : bool := negb (Qeq_bool q 0).
Definition truthy_str (n : option string) : bool :=
  match n with
  | Some n => negb (String.eqb n EmptyString)
  | None => false
  end.

(** ** Methods of [RiveSprite] *)

Open Scope Q_scope.

(** [advanceStateMachines(elapsed)].  The inner [for] loop pushes the changed
    state names one index at a time. *)
Definition collectStates (m : StateMachineInstance) : list string :=
  fold_left (fun states i => states ++ [stateChangedNameByIndex m i])
            (seq 0 (stateChangedCount m)) [].

Definition advanceStateMachine (notify : bool) (elapsed : Q)
  (m : StateMachineInstance) (w : World) : StateMachineInstance * World :=
  let m' := sm_advance elapsed m in
  let w1 := emit (SMAdvance (sm_handle m) elapsed) w in
  if notify && negb (Nat.eqb (stateChangedCount m') 0) then
    let states := collectStates m' in
    if negb (Nat.eqb (length states) 0)
    then (m', emit (StateChange states) w1)
    else (m', w1)
  else (m', w1).

Fixpoint advanceEach (notify : bool) (elapsed : Q)
  (ms : list StateMachineInstance) (w : World) : list StateMachineInstance * World :=
  match ms with
  | [] => ([], w)
  | m :: rest =>
      let '(m', w1) := advanceStateMachine notify elapsed m w in
      let '(rest', w2) := advanceEach notify elapsed rest w1 in
      (m' :: rest', w2)
  end.

Definition advanceStateMachines (elapsed : Q) (s : RiveSprite) : RiveSprite :=
  let '(ms, w) := advanceEach (onStateChange s) elapsed (stateMachines s) (world s) in
  set_world w (set_stateMachines ms s).

(** [advanceAnimations(elapsed)]. *)
Definition advanceAnimation (elapsed : Q) (a : LinearAnimationInstance) : list Event :=
  [AnimAdvance (an_handle a) elapsed; AnimApply (an_handle a) 1].

Definition advanceAnimations (elapsed : Q) (s : RiveSprite) : RiveSprite :=
  in_world (emits (flat_map (advanceAnimation elapsed) (animations s))) s.

(** The drawing half of a frame step. *)
Definition drawCalls (ab : Artboard) : list Event :=
  [RendererClear; RendererSave; ArtboardDraw (ab_handle ab); RendererRestore;
   RendererFlush; TextureUpdate].

(** [renderLoop(time)]. *)
Definition renderLoop (time : Q) (s : RiveSprite) : RiveSprite :=
  let s1 := if truthy_num (_lastTime s) then s else set_lastTime time s in
  let elapsedTime := (time - _lastTime s1) / 1000 in
  let s2 := set_lastTime time s1 in
  let s3 :=
    match artboard s2, _renderer s2 with
    | Some ab, Some _ =>
        let s4 := advanceStateMachines elapsedTime s2 in
        let s5 := advanceAnimations elapsedTime s4 in
        let s6 := in_world (emit (ArtboardAdvance (ab_handle ab) elapsedTime)) s5 in
        in_world (emits (drawCalls ab)) s6
    | _, _ => s2
    end in
  match _rive s3 with
  | Some _ =>
      if _enabled s3
      then in_world (fun w => snd (requestAnimationFrame w)) s3
      else s3
  | None => s3
  end.

(** [initEvents(interactive)]. *)
Definition initEvents (interactive : bool) (s : RiveSprite) : RiveSprite :=
  if negb interactive then s
  else
    {| _animFrame := _animFrame s; _lastTime := _lastTime s; _enabled := _enabled s;
       _debug := _debug s; _rive := _rive s; _file := _file s;
       _aligned := _aligned s; _renderer := _renderer s; _canvas := _canvas s;
       maxWidth := maxWidth s; maxHeight := maxHeight s; fit := fit s;
       align := align s; animations := animations s;
       stateMachines := stateMachines s; inputFields := inputFields s;
       onStateChange := onStateChange s; artboard := artboard s;
       texture := texture s; eventMode := EventStatic;
       pointerHandlers := true; toLocal := toLocal s;
       world := world s |}.

(** [enable()]. *)
Definition enable (s : RiveSprite) : RiveSprite :=
  let s1 := set_enabled true s in
  match _animFrame s1, _rive s1 with
  | O, Some _ =>
      let '(id, w) := requestAnimationFrame (world s1) in
      set_animFrame id (set_world w s1)
  | _, _ => s1
  end.

(** [disable()]. *)
Definition disable (s : RiveSprite) : RiveSprite :=
  let s1 := set_enabled false s in
  match _animFrame s1, _rive s1 with
  | S _, Some _ =>
      set_animFrame 0 (in_world (cancelAnimationFrame (_animFrame s1)) s1)
  | _, _ => s1
  end.

(** [updateSize()]. *)
Definition updateSize (s : RiveSprite) : Outcome :=
  match artboard s, _rive s, _renderer s with
  | Some ab, Some rive, Some _ =>
      let bounds := abd_bounds (ab_def ab) in
      let width := maxX bounds - minX bounds in
      let height := maxY bounds - minY bounds in
      let maxWidth' := if truthy_num (maxWidth s) then maxWidth s else width in
      let maxHeight' := if truthy_num (maxHeight s) then maxHeight s else height in
      let frame := {| minX := 0; minY := 0; maxX := maxWidth'; maxY := maxHeight' |} in
      let s1 := set_aligned (Some (computeAlignment rive (fit s) (align s) frame bounds)) s in
      let s2 := in_world (emit (RendererAlign (fit s) (align s) frame bounds)) s1 in
      match _canvas s2 with
      | Some _ =>
          let s3 := set_canvas (Some {| cv_width := maxWidth'; cv_height := maxHeight' |}) s2 in
          Returns (in_world (emit TextureUpdate) s3)
      | None => Throws TypeError s2
      end
  | _, _, _ => Returns s
  end.

(** [loadArtboard(artboard)]. *)
Definition loadArtboard (name : option string) (s : RiveSprite) : Outcome :=
  let s1 :=
    match artboard s with
    | Some ab => in_world (emit (ArtboardDelete (ab_handle ab))) s
    | None => s
    end in
  let s2 :=
    match _file s1, _canvas s1 with
    | Some file, Some _ =>
        let found :=
          if truthy_str name
          then artboardByName file (default EmptyString name)
          else defaultArtboard file in
        let s3 :=
          match found with
          | Some d =>
              let '(ab, w) := instantiateArtboard d (world s1) in
              set_artboard (Some ab) (set_world w s1)
          | None => set_artboard None s1
          end in
        set_texture TextureFromCanvas s3
    | _, _ => s1
    end in
  updateSize s2.

(** [instance.name === name], for a [name] that is a string. *)
Definition nameIs (property : option string) (name : string) : bool :=
  match property with
  | Some n => String.eqb n name
  | None => false
  end.

(** [unloadStateMachine(name)]: the filter callback deletes what it drops. *)
Fixpoint dropMachines (name : string) (ms : list StateMachineInstance)
  : list StateMachineInstance * list Event :=
  match ms with
  | [] => ([], [])
  | m :: rest =>
      let '(kept, dels) := dropMachines name rest in
      if nameIs (sm_nameProperty m) name
      then (kept, SMDelete (sm_handle m) :: dels)
      else (m :: kept, dels)
  end.

Definition unloadStateMachine (name : string) (s : RiveSprite) : RiveSprite :=
  let '(kept, dels) := dropMachines name (stateMachines s) in
  set_stateMachines kept (in_world (emits dels) s).

(** [stopAnimation(name)]. *)
Fixpoint dropAnimations (name : string) (l : list LinearAnimationInstance)
  : list LinearAnimationInstance * list Event :=
  match l with
  | [] => ([], [])
  | a :: rest =>
      let '(kept, dels) := dropAnimations name rest in
      if nameIs (an_nameProperty a) name
      then (kept, AnimDelete (an_handle a) :: dels)
      else (a :: kept, dels)
  end.

Definition stopAnimation (name : string) (s : RiveSprite) : RiveSprite :=
  let '(kept, dels) := dropAnimations name (animations s) in
  set_animations kept (in_world (emits dels) s).

(** [initInputFields()].  [asBool], [asTrigger] and [asNumber] are views of the
    same engine input. *)
Definition asBool (i : SMIInput) : SMIInput := i.
Definition asTrigger (i : SMIInput) : SMIInput := i.
Definition asNumber (i : SMIInput) : SMIInput := i.

Definition registerInput (m : StateMachineInstance)
  (fields : gmap string SMIInput) (i : nat) : gmap string SMIInput :=
  match input m i with
  | Some inp =>
      let field :=
        if decide (input_type inp = KBool) then asBool inp
        else if decide (input_type inp = KTrigger) then asTrigger inp
        else asNumber inp in
      <[input_name inp := field]> fields
  | None => fields
  end.

Definition registerMachine (fields : gmap string SMIInput)
  (m : StateMachineInstance) : gmap string SMIInput :=
  fold_left (registerInput m) (seq 0 (inputCount m)) fields.

Definition initInputFields (s : RiveSprite) : Outcome :=
  match _rive s with
  | None => Throws TypeError s
  | Some _ =>
      Returns (set_inputFields (fold_left registerMachine (stateMachines s) ∅) s)
  end.

(** [loadStateMachine(machines)].  The callback of [machines.map] reads
    [this.artboard] and [this._rive] itself; neither [unloadStateMachine] nor
    [stopAnimation] assigns them.  For a name the artboard does not have the
    lookup gives [null], and the constructor is called with it all the same:
    the instance it returns is registered like any other. *)
Definition loadOneMachine (name : string) (s : RiveSprite) : Outcome :=
  match artboard s with
  | None => Throws TypeError s
  | Some ab =>
      let machine := stateMachineByName ab name in
      let s1 := unloadStateMachine name s in
      match _rive s1 with
      | None => Throws TypeError s1
      | Some _ =>
          let '(m, w) := newStateMachineInstance machine ab (world s1) in
          Returns (set_stateMachines (stateMachines s1 ++ [m]) (set_world w s1))
      end
  end.

Definition loadStateMachine (machines : Names) (s : RiveSprite) : Outcome :=
  match artboard s, _rive s with
  | Some ab, Some _ =>
      let names :=
        match machines with
        | OneName n => [n]
        | ManyNames [] =>
            match stateMachineByIndex ab 0 with
            | Some defaultMachine => [smd_name defaultMachine]
            | None => []
            end
        | ManyNames l => l
        end in
      forEachName loadOneMachine names s ;;; initInputFields
  | _, _ => Returns s
  end.

(** [playAnimation(animations)]. *)
Definition playOneAnimation (name : string) (s : RiveSprite) : Outcome :=
  match artboard s with
  | None => Throws TypeError s
  | Some ab =>
      let animation := animationByName ab name in
      let s1 := stopAnimation name s in
      match _rive s1 with
      | None => Throws TypeError s1
      | Some _ =>
          let '(a, w) := newLinearAnimationInstance animation ab (world s1) in
          Returns (set_animations (animations s1 ++ [a]) (set_world w s1))
      end
  end.

Definition playAnimation (anims : Names) (s : RiveSprite) : Outcome :=
  match artboard s, _rive s with
  | None, None => Returns s
  | _, _ =>
      match anims with
      | OneName n => forEachName playOneAnimation [n] s
      | ManyNames l =>
          match l, stateMachines s with
          | [], [] =>
              match artboard s with
              | None => Throws TypeError s
              | Some ab =>
                  let names :=
                    match animationByIndex ab 0 with
                    | Some defaultAnimation => [and_name defaultAnimation]
                    | None => []
                    end in
                  forEachName playOneAnimation names s
              end
          | _, _ => forEachName playOneAnimation l s
          end
      end
  end.

(** [translatePoint(global)].  Over [Q] the two quotients are exact and a
    division by zero gives 0; in the code they are binary64 quotients.  With
    the fallback alignment the code subtracts 0 and divides by 1, which is
    exact there too. *)
Definition identityAlignment : Mat2D :=
  {| xx := 1; xy := 0; yx := 0; yy := 1; tx := 0; ty := 0 |}.

Definition translatePoint (global : Q * Q) (s : RiveSprite) : Q * Q :=
  let '(x, y) := toLocal s global in
  let m := default identityAlignment (_aligned s) in
  ((x - tx m) / xx m, (y - ty m) / yy m).

(** The three pointer handlers installed by [initEvents]. *)
Inductive PointerKind := PointerDown | PointerUp | PointerMove.

Definition pointerCall (k : PointerKind) (point : Q * Q) (m : StateMachineInstance) : Event :=
  match k with
  | PointerDown => SMPointerDown (sm_handle m) (fst point) (snd point)
  | PointerUp => SMPointerUp (sm_handle m) (fst point) (snd point)
  | PointerMove => SMPointerMove (sm_handle m) (fst point) (snd point)
  end.

Definition onpointer (k : PointerKind) (global : Q * Q) (s : RiveSprite) : RiveSprite :=
  let point := translatePoint global s in
  in_world (emits (map (pointerCall k point) (stateMachines s))) s.

(** The host delivers a pointer event to the handler, when there is one. *)
Definition dispatchPointer (k : PointerKind) (global : Q * Q) (s : RiveSprite) : RiveSprite :=
  if pointerHandlers s then onpointer k global s else s.

(** [getInputValue], [setInputValue], [fireTrigger].  [triggerTag] is
    [this._rive?.SMIInput.trigger]. *)
Definition triggerTag (s : RiveSprite) : option InputKind :=
  match _rive s with
  | Some _ => Some KTrigger
  | None => None
  end.

Definition getInputValue (name : string) (s : RiveSprite) : option JsValue :=
  match inputFields s !! name with
  | Some inp => input_values (world s) !! input_handle inp
  | None => None
  end.

Definition setInputValue (name : string) (value : JsValue) (s : RiveSprite) : RiveSprite :=
  match inputFields s !! name with
  | Some inp =>
      if decide (Some (input_type inp) <> triggerTag s)
      then in_world (fun w => emit (InputSet (input_handle inp) value)
                                   (store_value (input_handle inp)
                                      (input_write inp value) w)) s
      else s
  | None => s
  end.

Definition fireTrigger (name : string) (s : RiveSprite) : RiveSprite :=
  match inputFields s !! name with
  | Some inp =>
      if decide (Some (input_type inp) = triggerTag s)
      then in_world (emit (TriggerFire (input_handle inp))) s
      else s
  | None => s
  end.

(** [destroy()]. *)
Definition destroy (s : RiveSprite) : RiveSprite :=
  let s1 := in_world (emit SpriteDestroy) s in
  let s2 := disable s1 in
  let s3 := in_world (emits (map (fun m => SMDelete (sm_handle m)) (stateMachines s2))) s2 in
  let s4 := in_world (emits (map (fun a => AnimDelete (an_handle a)) (animations s3))) s3 in
  let s5 := match artboard s4 with
            | Some ab => in_world (emit (ArtboardDelete (ab_handle ab))) s4
            | None => s4
            end in
  let s6 := match _renderer s5 with
            | Some _ => in_world (emit RendererDelete) s5
            | None => s5
            end in
  match _file s6 with
  | Some _ => in_world (emit FileDelete) s6
  | None => s6
  end.

(** ** Construction *)

Record RiveOptions := {
  opt_debug : bool;
  opt_autoPlay : bool;
  opt_interactive : bool;
  opt_artboard : option string;
  opt_animation : Names;
  opt_stateMachine : Names;
  opt_onStateChange : bool
}.

(** The synchronous part of the constructor: field initialisers, then
    [initEvents].  [host] is the sprite's place in the display tree. *)
Definition construct (options : RiveOptions) (host : Q * Q -> Q * Q) : RiveSprite :=
  initEvents (opt_interactive options)
    {| _animFrame := 0; _lastTime := 0; _enabled := false;
       _debug := opt_debug options; _rive := None; _file := None;
       _aligned := None; _renderer := None; _canvas := None;
       maxWidth := 0; maxHeight := 0; fit := Contain; align := Center;
       animations := []; stateMachines := []; inputFields := ∅;
       onStateChange := opt_onStateChange options; artboard := None;
       texture := TextureEmpty; eventMode := EventAuto;
       pointerHandlers := false; toLocal := host; world := world0 |}.

Definition createCanvas (s : RiveSprite) : Canvas :=
  if _debug s then {| cv_width := 300; cv_height := 150 |}
  else {| cv_width := 100; cv_height := 100 |}.

(** [initRive(asset)], once the engine and the parsed file have arrived. *)
Definition initRive (rive : RiveCanvas) (file : File) (s : RiveSprite) : RiveSprite :=
  {| _animFrame := _animFrame s; _lastTime := _lastTime s; _enabled := _enabled s;
     _debug := _debug s; _rive := Some rive; _file := Some file;
     _aligned := _aligned s; _renderer := Some 0%nat;
     _canvas := Some (createCanvas s);
     maxWidth := maxWidth s; maxHeight := maxHeight s; fit := fit s;
     align := align s; animations := animations s;
     stateMachines := stateMachines s; inputFields := inputFields s;
     onStateChange := onStateChange s; artboard := artboard s;
     texture := texture s; eventMode := eventMode s;
     pointerHandlers := pointerHandlers s; toLocal := toLocal s;
     world := world s |}.

(** The continuation the constructor attaches to [initRive].  Its last act,
    calling [options.onReady], is the user's code and is left out. *)
Definition ready (options : RiveOptions) (s : RiveSprite) : Outcome :=
  loadArtboard (opt_artboard options) s
  ;;; loadStateMachine (opt_stateMachine options)
  ;;; playAnimation (opt_animation options)
  ;;; (fun s1 =>
         if opt_autoPlay options then Returns (enable s1)
         else match _rive s1 with
              | Some _ => Returns (in_world (fun w => snd (requestAnimationFrame w)) s1)
              | None => Returns s1
              end).

Definition newRiveSprite (options : RiveOptions) (host : Q * Q -> Q * Q)
  (rive : RiveCanvas) (file : File) : Outcome :=
  ready options (initRive rive file (construct options host)).

(** ** The host's frame clock

    One tick at time [t] runs every request that was pending when the tick
    began; requests made while it runs wait for the next tick.  The engine
    asks the browser for a frame only while a request is pending, so a tick
    with nothing pending is not a frame at all. *)
Definition tick (t : Q) (s : RiveSprite) : RiveSprite :=
  match pending (world s) with
  | [] => s
  | _ :: _ =>
      let '(due, w) := take_pending (world s) in
      fold_left (fun s' _ => renderLoop t s') due (set_world w s)
  end.

Definition ticks (ts : list Q) (s : RiveSprite) : RiveSprite :=
  fold_left (fun s' t => tick t s') ts s.

(** ** Reading a trace *)

(** The calls made between two states of the same sprite. *)
Definition since (s s' : RiveSprite) : list Event :=
  drop (length (calls s)) (calls s').

(** The elapsed times handed to [artboard.advance]. *)
Fixpoint advances (es : list Event) : list Q :=
  match es with
  | [] => []
  | ArtboardAdvance _ e :: rest => e :: advances rest
  | _ :: rest => advances rest
  end.

(** The lists handed to the [onStateChange] callback. *)
Fixpoint notifications (es : list Event) : list (list string) :=
  match es with
  | [] => []
  | StateChange l :: rest => l :: notifications rest
  | _ :: rest => notifications rest
  end.

Definition isMachineCall (e : Event) : bool :=
  match e with
  | SMAdvance _ _ | StateChange _ => true
  | _ => false
  end.

Definition isRequest (e : Event) : bool :=
  match e with
  | RequestFrame _ => true
  | _ => false
  end.

(** The machines advanced by a list of calls, in order. *)
Fixpoint machinesAdvanced (es : list Event) : list (nat * Q) :=
  match es with
  | [] => []
  | SMAdvance h e :: rest => (h, e) :: machinesAdvanced rest
  | _ :: rest => machinesAdvanced rest
  end.

(** What one machine contributes to a frame step. *)
Definition machineCalls (notify : bool) (elapsed : Q) (m : StateMachineInstance)
  : list Event :=
  SMAdvance (sm_handle m) elapsed ::
  match sm_changed (sm_advance elapsed m) with
  | [] => []
  | c :: cs => if notify then [StateChange (c :: cs)] else []
  end.

(** The elapsed time a step at [time] computes. *)
Definition elapsedAt (time : Q) (s : RiveSprite) : Q :=
  (time - (if truthy_num (_lastTime s) then _lastTime s else time)) / 1000.

(** The request a step makes at its end, while the sprite is running. *)
Definition reschedule (s : RiveSprite) : list Event :=
  match _rive s with
  | Some _ => if _enabled s then [RequestFrame (nextFrame (world s))] else []
  | None => []
  end.

(** Everything a frame step calls, in the order it calls it. *)
Definition stepCalls (time : Q) (s : RiveSprite) : list Event :=
  match artboard s, _renderer s with
  | Some ab, Some _ =>
      flat_map (machineCalls (onStateChange s) (elapsedAt time s)) (stateMachines s)
      ++ flat_map (advanceAnimation (elapsedAt time s)) (animations s)
      ++ [ArtboardAdvance (ab_handle ab) (elapsedAt time s)]
      ++ drawCalls ab
  | _, _ => []
  end.

(** ** The state invariant of the constructor and the public methods

    The artboard comes from the file; file, canvas, renderer and engine
    arrive together in [initRive]; the registry is filled only with the
    engine present.  [reachable_consistent] below shows that it holds in
    every state a sprite can reach. *)
Definition consistent (s : RiveSprite) : Prop :=
  (is_Some (artboard s) -> is_Some (_file s)) /\
  (is_Some (_file s) ->
     is_Some (_canvas s) /\ is_Some (_renderer s) /\ is_Some (_rive s)) /\
  (_rive s = None -> inputFields s = ∅).

(** ** What can happen to a sprite *)

(** The settings a user of the class assigns directly on the object. *)
Record Settings := {
  new_maxWidth : Q;
  new_maxHeight : Q;
  new_fit : Fit;
  new_align : Alignment;
  new_onStateChange : bool
}.

Definition assign (v : Settings) (s : RiveSprite) : RiveSprite :=
  {| _animFrame := _animFrame s; _lastTime := _lastTime s; _enabled := _enabled s;
     _debug := _debug s; _rive := _rive s; _file := _file s;
     _aligned := _aligned s; _renderer := _renderer s; _canvas := _canvas s;
     maxWidth := new_maxWidth v; maxHeight := new_maxHeight v; fit := new_fit v;
     align := new_align v; animations := animations s;
     stateMachines := stateMachines s; inputFields := inputFields s;
     onStateChange := new_onStateChange v; artboard := artboard s;
     texture := texture s; eventMode := eventMode s;
     pointerHandlers := pointerHandlers s; toLocal := toLocal s;
     world := world s |}.

(** Two states of a sprite that hold the same artboard, the same engine
    resources and the same registry. *)
Definition sameResources (s s' : RiveSprite) : Prop :=
  artboard s' = artboard s /\ _file s' = _file s /\
  (is_Some (_canvas s') <-> is_Some (_canvas s)) /\
  _renderer s' = _renderer s /\ _rive s' = _rive s /\
  inputFields s' = inputFields s.

(** What can happen to a sprite: the asset arrives, the host ticks or
    delivers a pointer event, a public method is called, a setting is
    assigned, or the constructor's continuation runs. *)
Inductive happens : RiveSprite -> RiveSprite -> Prop :=
  | happens_initRive rive file s : happens s (initRive rive file s)
  | happens_tick t s : happens s (tick t s)
  | happens_pointer k p s : happens s (dispatchPointer k p s)
  | happens_enable s : happens s (enable s)
  | happens_disable s : happens s (disable s)
  | happens_loadArtboard name s : happens s (final (loadArtboard name s))
  | happens_loadStateMachine names s : happens s (final (loadStateMachine names s))
  | happens_unloadStateMachine name s : happens s (unloadStateMachine name s)
  | happens_playAnimation names s : happens s (final (playAnimation names s))
  | happens_stopAnimation name s : happens s (stopAnimation name s)
  | happens_updateSize s : happens s (final (updateSize s))
  | happens_initInputFields s : happens s (final (initInputFields s))
  | happens_setInputValue name v s : happens s (setInputValue name v s)
  | happens_fireTrigger name s : happens s (fireTrigger name s)
  | happens_destroy s : happens s (destroy s)
  | happens_ready options s : happens s (final (ready options s))
  | happens_assign v s : happens s (assign v s).

Inductive reachable : RiveSprite -> Prop :=
  | reachable_construct options host : reachable (construct options host)
  | reachable_step s s' : reachable s -> happens s s' -> reachable s'.

(** ** The enumeration methods

    [getAvailableArtboards], [getAvailableStateMachines] and
    [getAvailableAnimations] fill an array by index: [available[i] = ...name].
    Assigning at the array's length appends, below it replaces, beyond it
    leaves holes (padded here with the empty string).  Reading [.name] off a
    [null] entry is a [TypeError]. *)
Inductive Listing :=
  | Listed (names : list string)
  | ListingFails (e : JsError).

Definition assignAt (available : list string) (i : nat) (v : string) : list string :=
  if Nat.ltb i (length available) then <[i := v]> available
  else available ++ replicate (i - length available) EmptyString ++ [v].

Definition listByIndex {A} (byIndex : nat -> option A) (name : A -> string)
  (count : nat) : Listing :=
  fold_left
    (fun acc i =>
       match acc with
       | Listed available =>
           match byIndex i with
           | Some d => Listed (assignAt available i (name d))
           | None => ListingFails TypeError
           end
       | ListingFails e => ListingFails e
       end)
    (seq 0 count) (Listed []).

Definition artboardCount (f : File) : nat := length (file_artboards f).
Definition artboardByIndex (f : File) (i : nat) : option ArtboardDef :=
  nth_error (file_artboards f) i.
Definition stateMachineCount (ab : Artboard) : nat :=
  length (abd_stateMachines (ab_def ab)).
Definition animationCount (ab : Artboard) : nat :=
  length (abd_animations (ab_def ab)).

Definition getAvailableArtboards (s : RiveSprite) : Listing :=
  match _file s with
  | Some f => listByIndex (artboardByIndex f) abd_name (artboardCount f)
  | None => Listed []
  end.

Definition getAvailableStateMachines (s : RiveSprite) : Listing :=
  match artboard s with
  | Some ab => listByIndex (stateMachineByIndex ab) smd_name (stateMachineCount ab)
  | None => Listed []
  end.

Definition getAvailableAnimations (s : RiveSprite) : Listing :=
  match artboard s with
  | Some ab => listByIndex (animationByIndex ab) and_name (animationCount ab)
  | None => Listed []
  end.

(** ** Histories

    A sprite evolves from one state to another by any number of the things
    that can happen to it. *)
Inductive evolves (s0 : RiveSprite) : RiveSprite -> Prop :=
  | evolves_here : evolves s0 s0
  | evolves_step s s' : evolves s0 s -> happens s s' -> evolves s0 s'.

(** What nothing assigns once [initEvents] has run. *)
Definition sameWiring (s s' : RiveSprite) : Prop :=
  pointerHandlers s' = pointerHandlers s /\ eventMode s' = eventMode s /\
  toLocal s' = toLocal s /\ _debug s' = _debug s.

(** What only the frame driver assigns: the handle, the running flag, the
    time baseline and the schedule itself.  (The engine handle is listed with
    them: the driver needs it, and only [initRive] assigns it.) *)
Definition sameSchedule (s s' : RiveSprite) : Prop :=
  _animFrame s' = _animFrame s /\ _enabled s' = _enabled s /\
  _lastTime s' = _lastTime s /\
  pending (world s') = pending (world s) /\
  nextFrame (world s') = nextFrame (world s) /\
  _rive s' = _rive s.

(** Same schedule, same animations, same artboard: what loading a state
    machine leaves alone. *)
Definition besidesMachines (s s' : RiveSprite) : Prop :=
  sameSchedule s s' /\ animations s' = animations s /\ artboard s' = artboard s.

(** Same schedule, same state machines, same artboard, same registry: what
    playing an animation leaves alone. *)
Definition besidesAnimations (s s' : RiveSprite) : Prop :=
  sameSchedule s s' /\ stateMachines s' = stateMachines s /\
  artboard s' = artboard s /\ inputFields s' = inputFields s.

(** The names of the active instances. *)
Definition machineNames (s : RiveSprite) : list string :=
  map sm_name (stateMachines s).
Definition animationNames (s : RiveSprite) : list string :=
  map an_name (animations s).

(** All inputs of the active machines, in registration order. *)
Definition activeInputs (s : RiveSprite) : list SMIInput :=
  flat_map sm_inputs (stateMachines s).

(** The last input of a given name in a list. *)
Definition lastNamed (name : string) (ins : list SMIInput) : option SMIInput :=
  List.find (fun i => String.eqb (input_name i) name) (rev ins).

(** The last declared input of a given name. *)
Definition lastDeclared (name : string) (ds : list InputDef) : option InputDef :=
  List.find (fun d => String.eqb (idef_name d) name) (rev ds).

(** The frame [updateSize] aligns the artboard into: the configured maximum
    where one is set, the artboard's own size otherwise. *)
Definition targetFrame (s : RiveSprite) (bounds : AABB) : AABB :=
  {| minX := 0; minY := 0;
     maxX := if truthy_num (maxWidth s) then maxWidth s
             else maxX bounds - minX bounds;
     maxY := if truthy_num (maxHeight s) then maxHeight s
             else maxY bounds - minY bounds |}.

(** The description [loadArtboard] asks the file for. *)
Definition requestedArtboard (arg : option string) (file : File) : option ArtboardDef :=
  if truthy_str arg then artboardByName file (default EmptyString arg)
  else defaultArtboard file.

(** An engine input made from a declaration: a declared initial value is
    the value it holds. *)
Definition instantiated (w : World) (d : InputDef) (i : SMIInput) : Prop :=
  input_name i = idef_name d /\ input_type i = idef_kind d /\
  (forall v, idef_default d = Some v ->
     input_values w !! input_handle i = Some v).

(** Every active instance is as the engine's constructor made it: reading
    [.name] off it gives [undefined]. *)
Definition engineMade (s : RiveSprite) : Prop :=
  Forall (fun m => sm_nameProperty m = None) (stateMachines s) /\
  Forall (fun a => an_nameProperty a = None) (animations s).

(** Same wiring and the same instances on stage, advanced or not. *)
Definition sameCast (s s' : RiveSprite) : Prop :=
  sameWiring s s' /\
  machineNames s' = machineNames s /\ animationNames s' = animationNames s /\
  map sm_nameProperty (stateMachines s') = map sm_nameProperty (stateMachines s) /\
  map an_nameProperty (animations s') = map an_nameProperty (animations s).

(** An artboard, or an active state machine, is only there together with a
    cached alignment. *)
Definition alignedWhenLoaded (s : RiveSprite) : Prop :=
  (is_Some (artboard s) -> is_Some (_aligned s)) /\
  (stateMachines s <> [] -> is_Some (_aligned s)).

Definition staged (s : RiveSprite) : Prop :=
  consistent s /\ alignedWhenLoaded s.

Definition keepsStaged (s s' : RiveSprite) : Prop := staged s -> staged s'.

(** Same resources, same alignment, and no state machine where there was
    none. *)
Definition sameStage (s s' : RiveSprite) : Prop :=
  sameResources s s' /\ _aligned s' = _aligned s /\
  (stateMachines s' <> [] -> stateMachines s <> []).

(** Same wiring, and engine-made instances only. *)
Definition keepsMade (s s' : RiveSprite) : Prop :=
  sameWiring s s' /\ (engineMade s -> engineMade s').

(** ** The disable/enable property, as stated *)





(** ** A small scene, for running the model *)

Definition idleMachine : StateMachineDef :=
  {| smd_name := "Idle";
     smd_inputs :=
       [ {| idef_name := "Active"; idef_decl := DeclBool false;
              idef_write := fun v => v |};
         {| idef_name := "Jump"; idef_decl := DeclTrigger;
              idef_write := fun v => v |};
         {| idef_name := "Level"; idef_decl := DeclNumber 0;
              idef_write := fun v => v |} ];
     smd_step := fun core _ => (S core, ["walk"%string]) |}.

Definition blinkMachine : StateMachineDef :=
  {| smd_name := "Blink";
     smd_inputs := [];
     smd_step := fun core _ => (S core, ["open"%string; "closed"%string]) |}.

Definition mainArtboard : ArtboardDef :=
  {| abd_name := "Main";
     abd_bounds := {| minX := 0; minY := 0; maxX := 100; maxY := 50 |};
     abd_animations := [ {| and_name := "idle" |}; {| and_name := "run" |} ];
     abd_stateMachines := [idleMachine; blinkMachine] |}.

Definition otherArtboard : ArtboardDef :=
  {| abd_name := "Other";
     abd_bounds := {| minX := 0; minY := 0; maxX := 20; maxY := 20 |};
     abd_animations := [ {| and_name := "spin" |} ];
     abd_stateMachines := [] |}.

Definition sceneFile : File := {| file_artboards := [mainArtboard; otherArtboard] |}.

(** An engine whose alignment stretches the content over the frame. *)
Definition stretchEngine : RiveCanvas :=
  {| computeAlignment := fun _ _ frame bounds =>
       {| xx := (maxX frame - minX frame) / (maxX bounds - minX bounds);
          xy := 0; yx := 0;
          yy := (maxY frame - minY frame) / (maxY bounds - minY bounds);
          tx := minX frame; ty := minY frame |} |}.

Definition plainOptions : RiveOptions :=
  {| opt_debug := false; opt_autoPlay := false; opt_interactive := false;
     opt_artboard := None; opt_animation := noNames;
     opt_stateMachine := noNames; opt_onStateChange := false |}.

(** An interactive, auto-playing sprite running both machines of [Main] and
    its [idle] animation, with a state-change callback. *)
Definition busyOptions : RiveOptions :=
  {| opt_debug := false; opt_autoPlay := true; opt_interactive := true;
     opt_artboard := Some "Main"%string;
     opt_animation := OneName "idle";
     opt_stateMachine := ManyNames ["Idle"%string; "Blink"%string];
     opt_onStateChange := true |}.

Definition hostIdentity (p : Q * Q) : Q * Q := p.

Definition busySprite : RiveSprite :=
  final (newRiveSprite busyOptions hostIdentity stretchEngine sceneFile).

(** A sprite built without auto-play: the constructor asks for one frame. *)
Definition stillSprite : RiveSprite :=
  final (newRiveSprite plainOptions hostIdentity stretchEngine sceneFile).

(** A sprite whose options name an artboard the scene does not have. *)
Definition typoOptions : RiveOptions :=
  {| opt_debug := false; opt_autoPlay := true; opt_interactive := false;
     opt_artboard := Some "Mian"%string; opt_animation := OneName "idle";
     opt_stateMachine := noNames; opt_onStateChange := false |}.

(** A sprite before its asset has arrived. *)
Definition bareSprite : RiveSprite := construct busyOptions hostIdentity.

(** The state the constructor has reached, for [typoOptions], when it comes
    to [playAnimation]: the engine and the file are there, the artboard is
    not. *)
Definition typoSprite : RiveSprite :=
  final (loadArtboard (opt_artboard typoOptions)
           (initRive stretchEngine sceneFile (construct typoOptions hostIdentity))).

(** [stillSprite] after the one frame its constructor asked for. *)
Definition drawnSprite : RiveSprite := tick 1000 stillSprite.


(** [busySprite] after its user has given every instance, by hand, a [name]
    property holding the name it was loaded under. *)
Definition namedSprite : RiveSprite :=
  set_animations
    (map (fun a => {| an_handle := an_handle a; an_def := an_def a;
                      an_nameProperty := Some (an_name a) |})
         (animations busySprite))
    (set_stateMachines
       (map (fun m => {| sm_handle := sm_handle m; sm_def := sm_def m;
                         sm_nameProperty := Some (sm_name m);
                         sm_core := sm_core m; sm_changed := sm_changed m;
                         sm_inputs := sm_inputs m |})
            (stateMachines busySprite))
       busySprite).

(** * Properties *)

(** Name the fields of a sprite and let the projections compute. *)
Ltac open_sprite s :=
  destruct s as [f_af f_lt f_en f_dbg f_rv f_fl f_al f_rd f_cv f_mw f_mh f_ft
                 f_ag f_ans f_sms f_flds f_osc f_ab f_tex f_em f_ph f_tl f_w];
  cbn in *.

(** ** The world: traces only grow *)

Lemma emits_nil w : emits [] w = w.
Proof. destruct w; unfold emits; cbn. by rewrite app_nil_r. Qed.

Lemma emit_emits e w : emit e w = emits [e] w.
Proof. reflexivity. Qed.

Lemma emits_emits a b w : emits b (emits a w) = emits (a ++ b) w.
Proof. unfold emits; cbn. by rewrite app_assoc. Qed.

Lemma trace_emits es w : trace (emits es w) = trace w ++ es.
Proof. reflexivity. Qed.

Lemma since_app s s' es : calls s' = calls s ++ es -> since s s' = es.
Proof.
  unfold since. intros ->. by rewrite drop_app_length.
Qed.

Lemma advances_app a b : advances (a ++ b) = advances a ++ advances b.
Proof.
  induction a as [|e a IH]; [done|].
  destruct e; cbn; rewrite ?IH; done.
Qed.

Lemma notifications_app a b :
  notifications (a ++ b) = notifications a ++ notifications b.
Proof.
  induction a as [|e a IH]; [done|].
  destruct e; cbn; rewrite ?IH; done.
Qed.

Lemma machinesAdvanced_app a b :
  machinesAdvanced (a ++ b) = machinesAdvanced a ++ machinesAdvanced b.
Proof.
  induction a as [|e a IH]; [done|].
  destruct e; cbn; rewrite ?IH; done.
Qed.

(** ** The state-machine sub-step *)

(** The index loop of [advanceStateMachines] copies the changed names. *)
Lemma push_by_index (l : list string) (d : string) n : forall k acc,
  (k + n <= length l)%nat ->
  fold_left (fun states i => states ++ [nth i l d]) (seq k n) acc
  = acc ++ take n (drop k l).
Proof.
  induction n as [|n IH]; intros k acc Hk; cbn.
  - by rewrite app_nil_r.
  - rewrite IH by lia.
    destruct (lookup_lt_is_Some_2 l k) as [x Hx]; [lia|].
    rewrite (drop_S _ _ _ Hx). cbn.
    rewrite nth_lookup, Hx. cbn. by rewrite <- app_assoc.
Qed.

Lemma collectStates_changed m : collectStates m = sm_changed m.
Proof.
  unfold collectStates, stateChangedCount, stateChangedNameByIndex.
  rewrite push_by_index by lia. cbn. by rewrite firstn_all.
Qed.

Lemma advanceStateMachine_calls notify e m w :
  advanceStateMachine notify e m w
  = (sm_advance e m, emits (machineCalls notify e m) w).
Proof.
  unfold advanceStateMachine, machineCalls, stateChangedCount.
  rewrite collectStates_changed.
  destruct (sm_changed (sm_advance e m)) as [|c cs], notify; cbn;
    rewrite ?emit_emits, ?emits_emits; done.
Qed.

Lemma advanceEach_calls notify e ms : forall w,
  advanceEach notify e ms w
  = (map (sm_advance e) ms, emits (flat_map (machineCalls notify e) ms) w).
Proof.
  induction ms as [|m ms IH]; intros w.
  - cbn. by rewrite emits_nil.
  - cbn [advanceEach]. rewrite advanceStateMachine_calls, IH.
    by rewrite emits_emits.
Qed.

Lemma machineCalls_machine notify e m :
  forallb isMachineCall (machineCalls notify e m) = true.
Proof.
  unfold machineCalls.
  destruct (sm_changed (sm_advance e m)), notify; done.
Qed.

Lemma machineCalls_advanced notify e ms :
  machinesAdvanced (flat_map (machineCalls notify e) ms)
  = map (fun m => (sm_handle m, e)) ms.
Proof.
  induction ms as [|m ms IH]; [done|].
  cbn [flat_map map]. rewrite machinesAdvanced_app, IH.
  unfold machineCalls.
  destruct (sm_changed (sm_advance e m)), notify; done.
Qed.

Lemma machineCalls_no_advance notify e ms :
  advances (flat_map (machineCalls notify e) ms) = [].
Proof.
  induction ms as [|m ms IH]; [done|].
  cbn [flat_map]. rewrite advances_app, IH.
  unfold machineCalls.
  destruct (sm_changed (sm_advance e m)), notify; done.
Qed.

Lemma animationCalls_no_advance e l :
  advances (flat_map (advanceAnimation e) l) = [].
Proof. induction l as [|a l IH]; [done|]. cbn. exact IH. Qed.

Lemma animationCalls_no_notification e l :
  notifications (flat_map (advanceAnimation e) l) = [].
Proof. induction l as [|a l IH]; [done|]. cbn. exact IH. Qed.

(** One callback per machine that reports a change, carrying its names. *)
Lemma machineCalls_notifications e ms :
  notifications (flat_map (machineCalls true e) ms)
  = List.filter (fun l => negb (Nat.eqb (length l) 0))
      (map (fun m => sm_changed (sm_advance e m)) ms).
Proof.
  induction ms as [|m ms IH]; [done|].
  cbn [flat_map map List.filter]. rewrite notifications_app, IH.
  unfold machineCalls.
  destruct (sm_changed (sm_advance e m)); done.
Qed.

(** ** The frame step *)

Lemma renderLoop_calls time s :
  calls (renderLoop time s) = calls s ++ stepCalls time s ++ reschedule s.
Proof.
  unfold renderLoop, stepCalls, reschedule, elapsedAt, calls, advanceAnimations,
    advanceStateMachines, in_world.
  rewrite advanceEach_calls.
  open_sprite s.
  destruct (truthy_num f_lt), f_ab as [ab|], f_rd as [r|], f_rv as [rv|], f_en;
    cbn; rewrite <- ?app_assoc, ?app_nil_r; cbn; done.
Qed.

(** The trace only grows through a frame step. *)
Lemma renderLoop_since time s :
  since s (renderLoop time s) = stepCalls time s ++ reschedule s.
Proof. apply since_app, renderLoop_calls. Qed.

Lemma reschedule_requests s : forallb isRequest (reschedule s) = true.
Proof. unfold reschedule. destruct (_rive s), (_enabled s); done. Qed.

Lemma consistent_renderer s ab :
  consistent s -> artboard s = Some ab -> exists r, _renderer s = Some r.
Proof.
  intros (Hab & Hfile & _) E.
  destruct Hfile as (_ & Hr & _); [apply Hab; rewrite E; eauto|].
  exact Hr.
Qed.

Lemma consistent_rive s ab :
  consistent s -> artboard s = Some ab -> exists rive, _rive s = Some rive.
Proof.
  intros (Hab & Hfile & _) E.
  destruct Hfile as (_ & _ & Hr); [apply Hab; rewrite E; eauto|].
  exact Hr.
Qed.

(** C5: within one frame step on a loaded artboard the calls come in this
    order: first the state machines (every active instance advanced, in list
    order, with nothing but machine advances and their notifications in that
    stretch), then for every active animation its advance followed by its
    apply, then the advance of the artboard itself, and only then the drawing
    calls; after them the step makes nothing but its re-scheduling request. *)
Theorem frame_step_order (time : Q) (s : RiveSprite) (ab : Artboard) :
  consistent s ->
  artboard s = Some ab ->
  exists machinePart animationPart rest,
    since s (renderLoop time s)
    = machinePart ++ animationPart
      ++ [ArtboardAdvance (ab_handle ab) (elapsedAt time s)]
      ++ [RendererClear; RendererSave; ArtboardDraw (ab_handle ab);
          RendererRestore; RendererFlush; TextureUpdate]
      ++ rest
    /\ forallb isMachineCall machinePart = true
    /\ machinesAdvanced machinePart
       = map (fun m => (sm_handle m, elapsedAt time s)) (stateMachines s)
    /\ animationPart
       = flat_map (fun a => [AnimAdvance (an_handle a) (elapsedAt time s);
                             AnimApply (an_handle a) 1]) (animations s)
    /\ forallb isRequest rest = true.
Proof.
  intros Hc Hab.
  destruct (consistent_renderer s ab Hc Hab) as [r Hr].
  exists (flat_map (machineCalls (onStateChange s) (elapsedAt time s)) (stateMachines s)),
         (flat_map (advanceAnimation (elapsedAt time s)) (animations s)),
         (reschedule s).
  split; [|split; [|split; [|split]]].
  - rewrite renderLoop_since. unfold stepCalls. rewrite Hab, Hr.
    unfold drawCalls. by rewrite <- !app_assoc.
  - rewrite forallb_forall. intros e He.
    apply in_flat_map in He as (m & _ & He).
    pose proof (machineCalls_machine (onStateChange s) (elapsedAt time s) m) as Hm.
    rewrite forallb_forall in Hm. by apply Hm.
  - apply machineCalls_advanced.
  - reflexivity.
  - apply reschedule_requests.
Qed.

Lemma busySprite_consistent : consistent busySprite.
Proof.
  repeat split; vm_compute; intros; try (eexists; reflexivity); discriminate.
Qed.

Lemma frame_step_order_witness :
  consistent busySprite /\
  artboard busySprite = Some {| ab_handle := 1; ab_def := mainArtboard |} /\
  exists machinePart animationPart rest,
    since busySprite (renderLoop 1000 busySprite)
    = machinePart ++ animationPart
      ++ [ArtboardAdvance 1 (elapsedAt 1000 busySprite)]
      ++ [RendererClear; RendererSave; ArtboardDraw 1;
          RendererRestore; RendererFlush; TextureUpdate]
      ++ rest
    /\ forallb isMachineCall machinePart = true
    /\ machinesAdvanced machinePart
       = map (fun m => (sm_handle m, elapsedAt 1000 busySprite))
             (stateMachines busySprite)
    /\ animationPart
       = flat_map (fun a => [AnimAdvance (an_handle a) (elapsedAt 1000 busySprite);
                             AnimApply (an_handle a) 1]) (animations busySprite)
    /\ forallb isRequest rest = true.
Proof.
  split; [exact busySprite_consistent|].
  split; [vm_compute; reflexivity|].
  apply (frame_step_order 1000 busySprite
           {| ab_handle := 1; ab_def := mainArtboard |}).
  - exact busySprite_consistent.
  - vm_compute; reflexivity.
Defined.

(** ** Notifications *)

Lemma reschedule_no_notification s : notifications (reschedule s) = [].
Proof. unfold reschedule. destruct (_rive s), (_enabled s); done. Qed.

Lemma step_notifications time s ab r :
  artboard s = Some ab -> _renderer s = Some r ->
  notifications (since s (renderLoop time s))
  = notifications
      (flat_map (machineCalls (onStateChange s) (elapsedAt time s)) (stateMachines s)).
Proof.
  intros Hab Hr. rewrite renderLoop_since. unfold stepCalls.
  rewrite Hab, Hr, !notifications_app, animationCalls_no_notification,
    reschedule_no_notification.
  cbn. by rewrite !app_nil_r.
Qed.

(** C2, as the code has it: in a frame step on a loaded artboard with the
    callback set, [onStateChange] is called once for every active state
    machine that reports changed states in that step, in list order, each
    call carrying that machine's own changed names in the engine's order.  It
    is called exactly once in the step only when exactly one machine reports
    a change. *)
Theorem notified_once_per_changed_machine (time : Q) (s : RiveSprite) (ab : Artboard) :
  consistent s ->
  artboard s = Some ab ->
  onStateChange s = true ->
  notifications (since s (renderLoop time s))
  = List.filter (fun names => negb (Nat.eqb (length names) 0))
      (map (fun m => sm_changed (sm_advance (elapsedAt time s) m)) (stateMachines s)).
Proof.
  intros Hc Hab Hcb.
  destruct (consistent_renderer s ab Hc Hab) as [r Hr].
  rewrite (step_notifications time s ab r Hab Hr), Hcb.
  apply machineCalls_notifications.
Qed.

Lemma notified_once_per_changed_machine_witness :
  consistent busySprite /\
  artboard busySprite = Some {| ab_handle := 1; ab_def := mainArtboard |} /\
  onStateChange busySprite = true /\
  notifications (since busySprite (renderLoop 1000 busySprite))
  = List.filter (fun names => negb (Nat.eqb (length names) 0))
      (map (fun m => sm_changed (sm_advance (elapsedAt 1000 busySprite) m))
           (stateMachines busySprite)).
Proof.
  split; [exact busySprite_consistent|].
  split; [vm_compute; reflexivity|].
  split; [vm_compute; reflexivity|].
  apply (notified_once_per_changed_machine 1000 busySprite
           {| ab_handle := 1; ab_def := mainArtboard |}).
  - exact busySprite_consistent.
  - vm_compute; reflexivity.
  - vm_compute; reflexivity.
Defined.

(** C2 as written fails: with the callback set and two machines that both
    change state in one step, the callback runs twice in that step, once per
    machine, and no call carries the collected list. *)
Lemma notified_once_per_step_counterexample :
  onStateChange busySprite = true /\
  Forall (fun m => sm_changed (sm_advance (elapsedAt 1000 busySprite) m) <> [])
         (stateMachines busySprite) /\
  notifications (since busySprite (renderLoop 1000 busySprite))
  = [["walk"%string]; ["open"%string; "closed"%string]] /\
  length (notifications (since busySprite (renderLoop 1000 busySprite))) <> 1%nat.
Proof.
  split; [vm_compute; reflexivity|].
  split; [vm_compute; repeat constructor; discriminate|].
  split; [vm_compute; reflexivity|].
  vm_compute. discriminate.
Qed.

(** ** Pointer translation *)

Lemma minus_zero_over_one (x : Q) : (x - 0) / 1 = x.
Proof.
  destruct x as [n d].
  unfold Qdiv, Qminus, Qplus, Qmult, Qinv, Qopp. cbn.
  f_equal; lia.
Qed.

Lemma translatePoint_unaligned s global :
  _aligned s = None -> translatePoint global s = toLocal s global.
Proof.
  intros H. unfold translatePoint. rewrite H.
  destruct (toLocal s global) as [x y]. cbn.
  by rewrite !minus_zero_over_one.
Qed.

(** C10: on an interactive sprite with no Alignment Result cached yet, the
    translated point is the sprite-local point itself (the fallback is scale
    1, translate 0), and each of the three pointer handlers makes exactly one
    call of its own kind, [pointerDown], [pointerUp] or [pointerMove], on
    every active state-machine instance, in list order, with that point's two
    coordinates, without failing. *)
Theorem pointer_fallback_identity (global : Q * Q) (s : RiveSprite) :
  pointerHandlers s = true ->
  _aligned s = None ->
  translatePoint global s = toLocal s global /\
  calls (dispatchPointer PointerDown global s)
  = calls s ++ map (fun m => SMPointerDown (sm_handle m)
                               (fst (toLocal s global)) (snd (toLocal s global)))
                   (stateMachines s) /\
  calls (dispatchPointer PointerUp global s)
  = calls s ++ map (fun m => SMPointerUp (sm_handle m)
                               (fst (toLocal s global)) (snd (toLocal s global)))
                   (stateMachines s) /\
  calls (dispatchPointer PointerMove global s)
  = calls s ++ map (fun m => SMPointerMove (sm_handle m)
                               (fst (toLocal s global)) (snd (toLocal s global)))
                   (stateMachines s).
Proof.
  intros Hh Ha. split; [by apply translatePoint_unaligned|].
  unfold dispatchPointer, onpointer. rewrite Hh.
  rewrite translatePoint_unaligned by done.
  repeat split.
Qed.

(** Two runs: the sprite before its asset has arrived, which has no machine
    yet, and a sprite with both machines of [Main] whose alignment has been
    cleared. *)
Lemma pointer_fallback_identity_witness :
  (pointerHandlers bareSprite = true /\
   _aligned bareSprite = None /\
   translatePoint (3, 4) bareSprite = (3, 4) /\
   calls (dispatchPointer PointerMove (3, 4) bareSprite) = calls bareSprite) /\
  (pointerHandlers (set_aligned None busySprite) = true /\
   _aligned (set_aligned None busySprite) = None /\
   translatePoint (3, 4) (set_aligned None busySprite) = (3, 4) /\
   since (set_aligned None busySprite)
         (dispatchPointer PointerDown (3, 4) (set_aligned None busySprite))
   = [SMPointerDown 2 3 4; SMPointerDown 6 3 4] /\
   since (set_aligned None busySprite)
         (dispatchPointer PointerUp (3, 4) (set_aligned None busySprite))
   = [SMPointerUp 2 3 4; SMPointerUp 6 3 4]).
Proof.
  split.
  - destruct (pointer_fallback_identity (3, 4) bareSprite eq_refl eq_refl)
      as (Ht & _ & _ & Hm).
    split; [reflexivity|]. split; [reflexivity|].
    split; [exact Ht|]. rewrite Hm. vm_compute; reflexivity.
  - assert (Hh : pointerHandlers (set_aligned None busySprite) = true)
      by (vm_compute; reflexivity).
    destruct (pointer_fallback_identity (3, 4) (set_aligned None busySprite)
                Hh eq_refl) as (Ht & Hd & Hu & _).
    split; [exact Hh|]. split; [reflexivity|].
    split; [exact Ht|].
    split; [rewrite (since_app _ _ _ Hd)|rewrite (since_app _ _ _ Hu)];
      vm_compute; reflexivity.
Defined.

(** ** The input-field registry *)

Lemma registered_trigger_tag s name f :
  consistent s -> inputFields s !! name = Some f -> triggerTag s = Some KTrigger.
Proof.
  intros (_ & _ & Hr) Hf. unfold triggerTag.
  destruct (_rive s); [done|].
  rewrite (Hr eq_refl), lookup_empty in Hf. discriminate.
Qed.

Lemma grown_not_same {A} (l : list A) x : l ++ [x] <> l.
Proof.
  intros H. apply (f_equal length) in H. rewrite length_app in H. cbn in H. lia.
Qed.

(** C9: [setInputValue(name, value)] assigns the value exactly when the
    registry has a field of that name whose kind is not trigger, and the one
    call it then makes is the assignment of that value to that very field;
    [fireTrigger(name)] fires exactly when the registry has a field of that
    name whose kind is trigger, and the one call it then makes is [fire()] on
    that very field; in every other case the call changes nothing at all. *)
Theorem input_write_and_fire (name : string) (value : JsValue) (s : RiveSprite) :
  consistent s ->
  ((exists h, calls (setInputValue name value s) = calls s ++ [InputSet h value])
     <-> (exists f, inputFields s !! name = Some f /\ input_type f <> KTrigger)) /\
  (forall f, inputFields s !! name = Some f -> input_type f <> KTrigger ->
     calls (setInputValue name value s)
       = calls s ++ [InputSet (input_handle f) value]) /\
  (~ (exists f, inputFields s !! name = Some f /\ input_type f <> KTrigger) ->
     setInputValue name value s = s) /\
  ((exists h, calls (fireTrigger name s) = calls s ++ [TriggerFire h])
     <-> (exists f, inputFields s !! name = Some f /\ input_type f = KTrigger)) /\
  (forall f, inputFields s !! name = Some f -> input_type f = KTrigger ->
     calls (fireTrigger name s) = calls s ++ [TriggerFire (input_handle f)]) /\
  (~ (exists f, inputFields s !! name = Some f /\ input_type f = KTrigger) ->
     fireTrigger name s = s).
Proof.
  intros Hc.
  assert (Hset : forall f, inputFields s !! name = Some f ->
            input_type f <> KTrigger ->
            calls (setInputValue name value s)
              = calls s ++ [InputSet (input_handle f) value]).
  { intros f Hf Hk. unfold setInputValue. rewrite Hf.
    rewrite (registered_trigger_tag s name f Hc Hf).
    destruct (decide (Some (input_type f) <> Some KTrigger)) as [_|n].
    - done.
    - exfalso. apply n. congruence. }
  assert (Hskip : ~ (exists f, inputFields s !! name = Some f /\ input_type f <> KTrigger) ->
            setInputValue name value s = s).
  { intros Hn. unfold setInputValue.
    destruct (inputFields s !! name) as [f|] eqn:Hf; [|done].
    rewrite (registered_trigger_tag s name f Hc Hf).
    destruct (decide (Some (input_type f) <> Some KTrigger)) as [y|_]; [|done].
    exfalso. apply Hn. exists f. split; [done|]. congruence. }
  assert (Hfire : forall f, inputFields s !! name = Some f ->
            input_type f = KTrigger ->
            calls (fireTrigger name s) = calls s ++ [TriggerFire (input_handle f)]).
  { intros f Hf Hk. unfold fireTrigger. rewrite Hf.
    rewrite (registered_trigger_tag s name f Hc Hf), Hk.
    destruct (decide (Some KTrigger = Some KTrigger)); done. }
  assert (Hidle : ~ (exists f, inputFields s !! name = Some f /\ input_type f = KTrigger) ->
            fireTrigger name s = s).
  { intros Hn. unfold fireTrigger.
    destruct (inputFields s !! name) as [f|] eqn:Hf; [|done].
    rewrite (registered_trigger_tag s name f Hc Hf).
    destruct (decide (Some (input_type f) = Some KTrigger)) as [y|_]; [|done].
    exfalso. apply Hn. exists f. split; [done|]. congruence. }
  split; [split|split; [exact Hset|split; [exact Hskip|
    split; [split|split; [exact Hfire|exact Hidle]]]]].
  - intros [h Hh].
    destruct (inputFields s !! name) as [f|] eqn:Hf.
    + destruct (decide (input_type f = KTrigger)) as [Hk|Hk].
      * rewrite Hskip in Hh.
        -- by apply eq_sym, grown_not_same in Hh.
        -- intros (f' & Hf' & Hk'). congruence.
      * by exists f.
    + rewrite Hskip in Hh.
      * by apply eq_sym, grown_not_same in Hh.
      * intros (f' & Hf' & _). congruence.
  - intros (f & Hf & Hk). exists (input_handle f). by apply Hset.
  - intros [h Hh].
    destruct (inputFields s !! name) as [f|] eqn:Hf.
    + destruct (decide (input_type f = KTrigger)) as [Hk|Hk].
      * by exists f.
      * rewrite Hidle in Hh.
        -- by apply eq_sym, grown_not_same in Hh.
        -- intros (f' & Hf' & Hk'). congruence.
    + rewrite Hidle in Hh.
      * by apply eq_sym, grown_not_same in Hh.
      * intros (f' & Hf' & _). congruence.
  - intros (f & Hf & Hk). exists (input_handle f). by apply Hfire.
Qed.

(** On the busy sprite the inputs of [Idle] have the handles 3 ([Active], a
    boolean), 4 ([Jump], a trigger) and 5 ([Level], a number). *)
Lemma input_write_and_fire_witness :
  consistent busySprite /\
  since busySprite (setInputValue "Active" (VBool true) busySprite)
    = [InputSet 3 (VBool true)] /\
  since busySprite (fireTrigger "Jump" busySprite) = [TriggerFire 4] /\
  fireTrigger "Active" busySprite = busySprite /\
  setInputValue "Jump" (VBool true) busySprite = busySprite.
Proof.
  split; [exact busySprite_consistent|].
  destruct (input_write_and_fire "Active" (VBool true) busySprite
              busySprite_consistent) as (_ & Hset & _ & _ & _ & Hidle).
  destruct (input_write_and_fire "Jump" (VBool true) busySprite
              busySprite_consistent) as (_ & _ & Hskip & _ & Hfire & _).
  assert (Hfa : inputFields busySprite !! "Active"%string
                = Some {| input_handle := 3; input_name := "Active";
                          input_type := KBool; input_write := fun v => v |})
    by (vm_compute; reflexivity).
  assert (Hfj : inputFields busySprite !! "Jump"%string
                = Some {| input_handle := 4; input_name := "Jump";
                          input_type := KTrigger; input_write := fun v => v |})
    by (vm_compute; reflexivity).
  split; [|split; [|split]].
  - apply since_app. exact (Hset _ Hfa ltac:(discriminate)).
  - apply since_app. exact (Hfire _ Hfj eq_refl).
  - apply Hidle. intros (f & Hf & Hk).
    rewrite Hfa in Hf. injection Hf as <-. discriminate.
  - apply Hskip. intros (f & Hf & Hk).
    rewrite Hfj in Hf. injection Hf as <-. by apply Hk.
Defined.

(** ** Replacing the artboard *)

Lemma updateSize_instances s :
  stateMachines (final (updateSize s)) = stateMachines s /\
  animations (final (updateSize s)) = animations s.
Proof.
  unfold updateSize.
  destruct (artboard s), (_rive s), (_renderer s); try done.
  cbn. destruct (_canvas s); done.
Qed.

(** [loadArtboard] never touches the two instance lists. *)
Lemma loadArtboard_instances name s :
  stateMachines (final (loadArtboard name s)) = stateMachines s /\
  animations (final (loadArtboard name s)) = animations s.
Proof.
  unfold loadArtboard.
  match goal with |- context [updateSize ?x] =>
    destruct (updateSize_instances x) as [-> ->] end.
  open_sprite s.
  destruct f_ab, f_fl as [f|], f_cv; cbn; try done;
    (destruct (truthy_str name);
     [destruct (artboardByName f (default EmptyString name))
     |destruct (defaultArtboard f)]; done).
Qed.

(** C1, on the code: loading the artboard [Other] into a sprite that runs
    two state machines and an animation on [Main] deletes the old artboard
    and installs the new one, and the call returns with both instance lists
    as they were: no machine and no animation is deleted. *)
Theorem loadArtboard_keeps_instances :
  exists s',
    loadArtboard (Some "Other"%string) busySprite = Returns s' /\
    map sm_name (stateMachines s') = ["Idle"%string; "Blink"%string] /\
    map an_name (animations s') = ["idle"%string] /\
    option_map ab_handle (artboard s') = Some 8%nat /\
    since busySprite s'
    = [ArtboardDelete 1; ArtboardNew 8 "Other";
       RendererAlign Contain Center
         {| minX := 0; minY := 0; maxX := 20; maxY := 20 |}
         {| minX := 0; minY := 0; maxX := 20; maxY := 20 |};
       TextureUpdate].
Proof.
  eexists. split; [vm_compute; reflexivity|].
  repeat split; vm_compute; reflexivity.
Qed.

(** The sibling path: [destroy] releases the machines and the animations
    before the artboard they are bound to. *)
Lemma destroy_releases_instances_first :
  since busySprite (destroy busySprite)
  = [SpriteDestroy; CancelFrame 1; SMDelete 2; SMDelete 6; AnimDelete 7;
     ArtboardDelete 1; RendererDelete; FileDelete].
Proof. vm_compute; reflexivity. Qed.

(** ** Playing animations *)

(** The guard of [playAnimation] lets the call through unless the artboard
    and the engine are both missing. *)
Lemma playAnimation_not_ready names s :
  artboard s = None -> _rive s = None -> playAnimation names s = Returns s.
Proof. intros Ha Hr. unfold playAnimation. by rewrite Ha, Hr. Qed.

(** Empty input on a sprite that runs a state machine starts nothing. *)
Lemma playAnimation_machine_driven s ab :
  artboard s = Some ab -> stateMachines s <> [] ->
  playAnimation noNames s = Returns s.
Proof.
  intros Ha Hm. unfold playAnimation, noNames. rewrite Ha.
  destruct (_rive s), (stateMachines s); done.
Qed.

(** C3, on the code: with the engine loaded and no artboard, [playAnimation]
    does not return: it fails with a [TypeError] on [this.artboard], for every
    input that names an animation and for empty input when no state machine
    is active.  The animations list is as it was. *)
Theorem playAnimation_without_artboard (names : Names) (s : RiveSprite) (rive : RiveCanvas) :
  artboard s = None ->
  _rive s = Some rive ->
  names <> noNames \/ stateMachines s = [] ->
  playAnimation names s = Throws TypeError s.
Proof.
  intros Ha Hr Hn. unfold playAnimation. rewrite Ha, Hr.
  destruct names as [n|[|n l]].
  - cbn. unfold playOneAnimation. by rewrite Ha.
  - destruct Hn as [Hn| ->]; [by destruct Hn|done].
  - cbn. unfold playOneAnimation. by rewrite Ha.
Qed.

Lemma playAnimation_without_artboard_witness :
  artboard typoSprite = None /\
  _rive typoSprite = Some stretchEngine /\
  (OneName "idle" <> noNames \/ stateMachines typoSprite = []) /\
  playAnimation (OneName "idle") typoSprite = Throws TypeError typoSprite.
Proof.
  split; [reflexivity|]. split; [reflexivity|].
  split; [left; discriminate|].
  apply (playAnimation_without_artboard (OneName "idle") typoSprite stretchEngine).
  - reflexivity.
  - reflexivity.
  - left; discriminate.
Defined.

(** The constructor itself runs into it when its options name an artboard
    the scene does not have. *)
Lemma constructor_with_missing_artboard :
  newRiveSprite typoOptions hostIdentity stretchEngine sceneFile
  = Throws TypeError typoSprite.
Proof. vm_compute; reflexivity. Qed.

(** ** Loading state machines *)

Lemma stateMachineByName_name ab name d :
  stateMachineByName ab name = Some d -> smd_name d = name.
Proof.
  unfold stateMachineByName. intros H.
  apply find_some in H as [_ H]. by apply String.eqb_eq.
Qed.

(** The filter of [unloadStateMachine], and what it deletes. *)
Lemma dropMachines_filter name ms :
  dropMachines name ms
  = (List.filter (fun m => negb (nameIs (sm_nameProperty m) name)) ms,
     map (fun m => SMDelete (sm_handle m))
         (List.filter (fun m => nameIs (sm_nameProperty m) name) ms)).
Proof.
  induction ms as [|m ms IH]; cbn; [done|].
  rewrite IH. by destruct (nameIs (sm_nameProperty m) name).
Qed.

Lemma dropAnimations_filter name l :
  dropAnimations name l
  = (List.filter (fun a => negb (nameIs (an_nameProperty a) name)) l,
     map (fun a => AnimDelete (an_handle a))
         (List.filter (fun a => nameIs (an_nameProperty a) name) l)).
Proof.
  induction l as [|a l IH]; cbn; [done|].
  rewrite IH. by destruct (nameIs (an_nameProperty a) name).
Qed.

(** Instances without a [name] property pass the filter, whatever the
    name. *)
Lemma dropMachines_none name ms :
  Forall (fun m => sm_nameProperty m = None) ms -> dropMachines name ms = (ms, []).
Proof.
  induction 1 as [|m ms Hm _ IH]; cbn; [done|].
  by rewrite IH, Hm.
Qed.

Lemma dropAnimations_none name l :
  Forall (fun a => an_nameProperty a = None) l -> dropAnimations name l = (l, []).
Proof.
  induction 1 as [|a l Ha _ IH]; cbn; [done|].
  by rewrite IH, Ha.
Qed.

Lemma instantiateInputs_world ds : forall w,
  trace (instantiateInputs ds w).2 = trace w /\
  pending (instantiateInputs ds w).2 = pending w /\
  nextFrame (instantiateInputs ds w).2 = nextFrame w /\
  nextHandle (instantiateInputs ds w).2 = (nextHandle w + length ds)%nat.
Proof.
  induction ds as [|d ds IH]; intros w; cbn.
  - repeat split; lia.
  - match goal with |- context [instantiateInputs ds ?x] =>
      specialize (IH x); destruct (instantiateInputs ds x) as [ins w3] end.
    cbn in *. destruct IH as (-> & -> & -> & ->).
    destruct (idef_default d); cbn; repeat split; lia.
Qed.

(** What one call [loadStateMachine(name)] does: whether or not the artboard
    has a machine of that name, an instance is made of what the lookup gave
    and registered after the instances the filter has kept. *)
Lemma loadStateMachine_named s ab rive name :
  artboard s = Some ab -> _rive s = Some rive ->
  exists s1 m,
    loadStateMachine (OneName name) s = Returns s1 /\
    stateMachines s1 = (dropMachines name (stateMachines s)).1 ++ [m] /\
    sm_def m = stateMachineByName ab name /\
    sm_nameProperty m = None /\
    sm_handle m = nextHandle (world s) /\
    (nextHandle (world s) < nextHandle (world s1))%nat /\
    calls s1 = calls s ++ (dropMachines name (stateMachines s)).2
                 ++ [SMNew (sm_handle m) (smd_name <$> stateMachineByName ab name)
                       (ab_handle ab)] /\
    artboard s1 = Some ab /\ _rive s1 = Some rive.
Proof.
  intros Ha Hr.
  unfold loadStateMachine. rewrite Ha, Hr. cbn [forEachName].
  unfold loadOneMachine. rewrite Ha.
  unfold unloadStateMachine.
  destruct (dropMachines name (stateMachines s)) as [kept dels] eqn:Hdrop.
  open_sprite s. subst f_ab f_rv.
  unfold newStateMachineInstance. cbn.
  match goal with |- context [instantiateInputs ?ds ?x] =>
    pose proof (instantiateInputs_world ds x) as Hw;
    destruct (instantiateInputs ds x) as [ins w2] end.
  cbn in *.
  destruct Hw as (Ht & Hp & Hf & Hh).
  eexists _, _. split; [reflexivity|]. cbn.
  repeat split; try done.
  - lia.
  - unfold calls. cbn. rewrite Ht. by rewrite <- app_assoc.
Qed.

(** C7, on the code: [unloadStateMachine] looks for the instance to replace
    by its [name] property, which the engine's instances do not have.  So on
    a sprite with an artboard loaded, whose instances are as the engine made
    them, loading a state machine of the artboard by name twice in a row
    leaves two live instances of it in [stateMachines], the first and the
    second, and neither call deletes anything. *)
Theorem loadStateMachine_twice_keeps_both (s : RiveSprite) (ab : Artboard)
  (name : string) (d : StateMachineDef) :
  consistent s ->
  artboard s = Some ab ->
  stateMachineByName ab name = Some d ->
  Forall (fun m => sm_nameProperty m = None) (stateMachines s) ->
  exists s1 s2 m1 m2,
    loadStateMachine (OneName name) s = Returns s1 /\
    loadStateMachine (OneName name) s1 = Returns s2 /\
    stateMachines s1 = stateMachines s ++ [m1] /\
    stateMachines s2 = stateMachines s ++ [m1; m2] /\
    sm_def m1 = Some d /\ sm_def m2 = Some d /\
    sm_handle m1 <> sm_handle m2 /\
    since s s1 = [SMNew (sm_handle m1) (Some name) (ab_handle ab)] /\
    since s1 s2 = [SMNew (sm_handle m2) (Some name) (ab_handle ab)].
Proof.
  intros Hc Ha Hd Hmade.
  destruct (consistent_rive s ab Hc Ha) as [rive Hr].
  pose proof (stateMachineByName_name ab name d Hd) as Hname.
  destruct (loadStateMachine_named s ab rive name Ha Hr)
    as (s1 & m1 & E1 & L1 & D1 & P1 & H1 & N1 & C1 & A1 & R1).
  destruct (loadStateMachine_named s1 ab rive name A1 R1)
    as (s2 & m2 & E2 & L2 & D2 & P2 & H2 & N2 & C2 & A2 & R2).
  rewrite (dropMachines_none name _ Hmade) in L1, C1. cbn in L1, C1.
  assert (Hmade1 : Forall (fun m => sm_nameProperty m = None) (stateMachines s1)).
  { rewrite L1. apply Forall_app. split; [done|]. by constructor. }
  rewrite (dropMachines_none name _ Hmade1) in L2, C2. cbn in L2, C2.
  rewrite Hd in D1, D2, C1, C2. cbn in C1, C2. rewrite Hname in C1, C2.
  exists s1, s2, m1, m2.
  repeat split; try done.
  - by rewrite L2, L1, <- app_assoc.
  - lia.
  - by apply since_app.
  - by apply since_app.
Qed.

Lemma stillSprite_consistent : consistent stillSprite.
Proof.
  repeat split; vm_compute; intros; try (eexists; reflexivity); discriminate.
Qed.

(** The sprite built with default options runs [Idle]; [Blink] loaded twice
    makes three. *)
Lemma loadStateMachine_twice_keeps_both_witness :
  consistent stillSprite /\
  artboard stillSprite = Some {| ab_handle := 1; ab_def := mainArtboard |} /\
  stateMachineByName {| ab_handle := 1; ab_def := mainArtboard |} "Blink"
    = Some blinkMachine /\
  map sm_name (stateMachines stillSprite) = ["Idle"%string] /\
  exists s1 s2 m1 m2,
    loadStateMachine (OneName "Blink") stillSprite = Returns s1 /\
    loadStateMachine (OneName "Blink") s1 = Returns s2 /\
    stateMachines s1 = stateMachines stillSprite ++ [m1] /\
    stateMachines s2 = stateMachines stillSprite ++ [m1; m2] /\
    sm_def m1 = Some blinkMachine /\ sm_def m2 = Some blinkMachine /\
    sm_handle m1 <> sm_handle m2 /\
    since stillSprite s1 = [SMNew (sm_handle m1) (Some "Blink"%string) 1] /\
    since s1 s2 = [SMNew (sm_handle m2) (Some "Blink"%string) 1].
Proof.
  split; [exact stillSprite_consistent|].
  split; [reflexivity|]. split; [reflexivity|]. split; [reflexivity|].
  apply (loadStateMachine_twice_keeps_both stillSprite
           {| ab_handle := 1; ab_def := mainArtboard |} "Blink" blinkMachine).
  - exact stillSprite_consistent.
  - reflexivity.
  - reflexivity.
  - vm_compute. repeat constructor.
Defined.

(** ** Loading an artboard that is not there *)

Lemma consistent_no_file s :
  consistent s -> _file s = None -> artboard s = None.
Proof.
  intros (Hab & _) Hf. destruct (artboard s) eqn:E; [|done].
  destruct Hab as [f Hf']; [eauto|]. congruence.
Qed.

(** C8, as the code has it: [loadArtboard] with a non-empty name the scene
    does not have returns without failing and leaves the artboard unset; the
    previous artboard, if there was one, is deleted, the texture is bound to
    the canvas, and every other field, the two instance lists and the
    registry among them, is as it was.  With no scene loaded the call,
    whatever its argument, returns the sprite exactly as it was, with no
    artboard.  The empty string is not looked up at all: the method takes it,
    like [undefined], as a request for the default artboard. *)
Theorem loadArtboard_missing_is_silent (arg : option string) (s : RiveSprite) :
  consistent s ->
  (_file s = None \/
   exists name file,
     arg = Some name /\ name <> EmptyString /\
     _file s = Some file /\ artboardByName file name = None) ->
  (exists s',
    loadArtboard arg s = Returns s' /\
    artboard s' = None /\
    stateMachines s' = stateMachines s /\
    animations s' = animations s /\
    inputFields s' = inputFields s /\
    _aligned s' = _aligned s /\
    since s s'
    = match artboard s with
      | Some old => [ArtboardDelete (ab_handle old)]
      | None => []
      end /\
    (_file s = None -> s' = s)) /\
  loadArtboard (Some EmptyString) s = loadArtboard None s.
Proof.
  intros Hc Hcase. split; [|reflexivity].
  destruct Hcase as [Hnone|(name & file & -> & Hname & Hfile & Hmiss)].
  - pose proof (consistent_no_file s Hc Hnone) as Hab.
    exists s. unfold loadArtboard, updateSize. rewrite Hab, Hnone. cbn.
    rewrite Hab. repeat split; try done.
    unfold since. by rewrite drop_all.
  - destruct Hc as (_ & Hsetup & _).
    destruct Hsetup as ([cv Hcv] & _ & _); [eauto|].
    apply String.eqb_neq in Hname.
    unfold loadArtboard, updateSize, truthy_str. rewrite Hname. cbn.
    open_sprite s. subst f_fl f_cv.
    destruct f_ab as [old|]; cbn; rewrite Hmiss; cbn;
      eexists; (split; [reflexivity|]); cbn; repeat split; try done.
    + unfold since, calls. cbn. by rewrite drop_app_length.
    + unfold since, calls. cbn. by rewrite drop_all.
Qed.

Lemma loadArtboard_missing_is_silent_witness :
  consistent busySprite /\
  artboardByName sceneFile "Mian" = None /\
  (exists s',
    loadArtboard (Some "Mian"%string) busySprite = Returns s' /\
    artboard s' = None /\
    stateMachines s' = stateMachines busySprite /\
    animations s' = animations busySprite /\
    inputFields s' = inputFields busySprite /\
    _aligned s' = _aligned busySprite /\
    since busySprite s'
    = match artboard busySprite with
      | Some old => [ArtboardDelete (ab_handle old)]
      | None => []
      end /\
    (_file busySprite = None -> s' = busySprite)) /\
  loadArtboard (Some EmptyString) busySprite = loadArtboard None busySprite.
Proof.
  split; [exact busySprite_consistent|].
  split; [reflexivity|].
  apply (loadArtboard_missing_is_silent (Some "Mian"%string) busySprite).
  - exact busySprite_consistent.
  - right. exists "Mian"%string, sceneFile.
    split; [reflexivity|]. split; [discriminate|]. split; reflexivity.
Defined.

(** C8 as written fails: no artboard of the scene is named by the empty
    string, yet [loadArtboard] called with it on a sprite whose scene is
    loaded deletes the current artboard and installs a new instance of the
    scene's first artboard, [Main]. *)
Lemma loadArtboard_empty_name_counterexample :
  _file busySprite = Some sceneFile /\
  artboardByName sceneFile EmptyString = None /\
  exists s' ab,
    loadArtboard (Some EmptyString) busySprite = Returns s' /\
    artboard s' = Some ab /\
    ab_def ab = mainArtboard /\
    since busySprite s'
    = [ArtboardDelete 1; ArtboardNew 8 "Main";
       RendererAlign Contain Center
         {| minX := 0; minY := 0; maxX := 100; maxY := 50 |}
         {| minX := 0; minY := 0; maxX := 100; maxY := 50 |};
       TextureUpdate].
Proof.
  split; [vm_compute; reflexivity|]. split; [reflexivity|].
  eexists _, _. split; [vm_compute; reflexivity|].
  repeat split; vm_compute; reflexivity.
Qed.

(** Before the asset has arrived there is no scene: the call changes nothing. *)
Lemma loadArtboard_before_asset :
  loadArtboard (Some "Main"%string) bareSprite = Returns bareSprite /\
  loadArtboard None bareSprite = Returns bareSprite.
Proof. split; reflexivity. Qed.

(** ** The frame driver *)

Lemma renderLoop_fields time s :
  artboard (renderLoop time s) = artboard s /\
  _renderer (renderLoop time s) = _renderer s /\
  _rive (renderLoop time s) = _rive s /\
  _file (renderLoop time s) = _file s /\
  _canvas (renderLoop time s) = _canvas s /\
  inputFields (renderLoop time s) = inputFields s /\
  _enabled (renderLoop time s) = _enabled s /\
  _animFrame (renderLoop time s) = _animFrame s /\
  _lastTime (renderLoop time s) = time.
Proof.
  unfold renderLoop, advanceAnimations, advanceStateMachines, in_world.
  rewrite advanceEach_calls.
  open_sprite s.
  destruct (truthy_num f_lt), f_ab, f_rd, f_rv, f_en; cbn; done.
Qed.

Lemma renderLoop_pending time s :
  pending (world (renderLoop time s))
  = pending (world s)
    ++ match _rive s with
       | Some _ => if _enabled s then [nextFrame (world s)] else []
       | None => []
       end.
Proof.
  unfold renderLoop, advanceAnimations, advanceStateMachines, in_world.
  rewrite advanceEach_calls.
  open_sprite s.
  destruct (truthy_num f_lt), f_ab, f_rd, f_rv, f_en; cbn;
    rewrite ?app_nil_r; done.
Qed.

Lemma tick_nothing_pending t s : pending (world s) = [] -> tick t s = s.
Proof. intros H. unfold tick. by rewrite H. Qed.

Lemma ticks_nothing_pending ts s : pending (world s) = [] -> ticks ts s = s.
Proof.
  intros H. induction ts as [|t ts IH]; [done|].
  change (ticks (t :: ts) s) with (ticks ts (tick t s)).
  by rewrite tick_nothing_pending.
Qed.

Lemma disable_fields s :
  _enabled (disable s) = false /\
  artboard (disable s) = artboard s /\ _renderer (disable s) = _renderer s /\
  _rive (disable s) = _rive s /\ _file (disable s) = _file s /\
  _canvas (disable s) = _canvas s /\
  inputFields (disable s) = inputFields s /\
  _lastTime (disable s) = _lastTime s /\
  (is_Some (_rive s) -> _animFrame (disable s) = 0%nat) /\
  (_animFrame s = 0%nat \/ is_Some (_rive s) ->
   Forall (fun id => id <> _animFrame s \/ _animFrame s = 0%nat)
          (pending (world (disable s)))).
Proof.
  unfold disable, in_world. open_sprite s.
  destruct f_af as [|n], f_rv as [rive|]; cbn; repeat split; try done.
  - intros _. rewrite Forall_forall. intros; by right.
  - intros _. rewrite Forall_forall. intros; by right.
  - intros _. rewrite Forall_forall. intros id Hid. left.
    apply list_elem_of_In, filter_In in Hid as [_ Hid].
    apply negb_true_iff, Nat.eqb_neq in Hid. done.
  - intros [H|[x H]]; done.
Qed.



Lemma stepCalls_one_advance time s ab r :
  artboard s = Some ab -> _renderer s = Some r ->
  advances (stepCalls time s ++ reschedule s) = [elapsedAt time s].
Proof.
  intros Ha Hr. unfold stepCalls, reschedule. rewrite Ha, Hr.
  rewrite !advances_app, machineCalls_no_advance, animationCalls_no_advance.
  destruct (_rive s), (_enabled s); done.
Qed.



Lemma drawnSprite_consistent : consistent drawnSprite.
Proof.
  repeat split; vm_compute; intros; try (eexists; reflexivity); discriminate.
Qed.




(** ** The invariant holds in every state a sprite can be in *)

Lemma sameResources_refl s : sameResources s s.
Proof. repeat split; done. Qed.

Lemma sameResources_trans a b c :
  sameResources a b -> sameResources b c -> sameResources a c.
Proof.
  intros (A1 & A2 & A3 & A4 & A5 & A6) (B1 & B2 & B3 & B4 & B5 & B6).
  repeat split; try congruence; intros H; [apply A3, B3|apply B3, A3]; exact H.
Qed.

Lemma sameResources_consistent s s' :
  sameResources s s' -> consistent s -> consistent s'.
Proof.
  intros (A1 & A2 & A3 & A4 & A5 & A6) (C1 & C2 & C3).
  unfold consistent. rewrite A1, A2, A4, A5, A6.
  split; [done|]. split; [|done].
  intros Hf. destruct (C2 Hf) as (Hc & Hr & Hv).
  split; [by apply A3|done].
Qed.

Lemma forEachName_invariant (R : RiveSprite -> RiveSprite -> Prop) body :
  (forall s, R s s) ->
  (forall a b c, R a b -> R b c -> R a c) ->
  (forall n s, R s (final (body n s))) ->
  forall names s, R s (final (forEachName body names s)).
Proof.
  intros Hrefl Htrans Hbody names.
  induction names as [|n names IH]; intros s; cbn; [apply Hrefl|].
  specialize (Hbody n s).
  destruct (body n s) as [s1|e s1]; cbn in *; [|done].
  eapply Htrans; [exact Hbody|apply IH].
Qed.

Lemma renderLoop_sameResources t s : sameResources s (renderLoop t s).
Proof.
  destruct (renderLoop_fields t s) as (E1 & E2 & E3 & E4 & E5 & E6 & _).
  repeat split; try done; rewrite E5; done.
Qed.

Lemma tick_sameResources t s : sameResources s (tick t s).
Proof.
  unfold tick, take_pending.
  destruct (pending (world s)) as [|d0 due0] eqn:Hp; [apply sameResources_refl|].
  rewrite <- Hp. clear Hp.
  match goal with |- context [fold_left _ _ ?x] =>
    apply (sameResources_trans s x); [repeat split; done|generalize x] end.
  induction (pending (world s)) as [|d due IH]; intros x; cbn.
  - apply sameResources_refl.
  - eapply sameResources_trans; [apply renderLoop_sameResources|apply IH].
Qed.

Lemma enable_sameResources s : sameResources s (enable s).
Proof.
  unfold enable. open_sprite s. destruct f_af, f_rv; repeat split; done.
Qed.

Lemma disable_sameResources s : sameResources s (disable s).
Proof.
  destruct (disable_fields s) as (_ & E1 & E2 & E3 & E4 & E5 & E6 & _).
  repeat split; try done; rewrite E5; done.
Qed.

Lemma unloadStateMachine_sameResources name s :
  sameResources s (unloadStateMachine name s).
Proof.
  unfold unloadStateMachine. destruct (dropMachines name (stateMachines s)).
  repeat split; done.
Qed.

Lemma stopAnimation_sameResources name s :
  sameResources s (stopAnimation name s).
Proof.
  unfold stopAnimation. destruct (dropAnimations name (animations s)).
  repeat split; done.
Qed.

Lemma loadOneMachine_sameResources name s :
  sameResources s (final (loadOneMachine name s)).
Proof.
  unfold loadOneMachine.
  destruct (artboard s) as [ab|] eqn:Ha; [|apply sameResources_refl].
  pose proof (unloadStateMachine_sameResources name s) as Hu.
  destruct (_rive (unloadStateMachine name s)); [|exact Hu].
  destruct (newStateMachineInstance _ ab _) as [m w].
  eapply sameResources_trans; [exact Hu|]. repeat split; done.
Qed.

Lemma playOneAnimation_sameResources name s :
  sameResources s (final (playOneAnimation name s)).
Proof.
  unfold playOneAnimation.
  destruct (artboard s) as [ab|] eqn:Ha; [|apply sameResources_refl].
  pose proof (stopAnimation_sameResources name s) as Hu.
  destruct (_rive (stopAnimation name s)); [|exact Hu].
  destruct (newLinearAnimationInstance _ ab _) as [a w].
  eapply sameResources_trans; [exact Hu|]. repeat split; done.
Qed.

Lemma playAnimation_sameResources names s :
  sameResources s (final (playAnimation names s)).
Proof.
  pose proof (forEachName_invariant sameResources playOneAnimation
                sameResources_refl sameResources_trans
                playOneAnimation_sameResources) as Hloop.
  unfold playAnimation.
  destruct (artboard s) as [ab|], (_rive s), names as [n|[|n l]];
    try apply Hloop; try apply sameResources_refl;
    destruct (stateMachines s); try apply Hloop; apply sameResources_refl.
Qed.

Lemma consistent_construct options host : consistent (construct options host).
Proof.
  unfold construct, initEvents.
  destruct (opt_interactive options); cbn;
    (split; [intros [x Hx]; discriminate
            |split; [intros [x Hx]; discriminate|done]]).
Qed.

Lemma consistent_initRive rive file s :
  consistent s -> consistent (initRive rive file s).
Proof. intros _. repeat split; cbn; eauto; done. Qed.

Lemma consistent_updateSize s : consistent s -> consistent (final (updateSize s)).
Proof.
  intros Hc. unfold updateSize.
  destruct (artboard s) eqn:Ha, (_rive s) eqn:Hv, (_renderer s) eqn:Hr; try done.
  cbn. destruct (_canvas s) eqn:Hcv; cbn.
  - revert Hc. apply sameResources_consistent.
    repeat split; cbn; try done; rewrite ?Hcv; eauto.
  - revert Hc. apply sameResources_consistent. repeat split; done.
Qed.

Lemma consistent_initInputFields s :
  consistent s -> consistent (final (initInputFields s)).
Proof.
  intros Hc. unfold initInputFields.
  destruct (_rive s) eqn:Hv; [|done].
  destruct Hc as (C1 & C2 & C3).
  split; [exact C1|]. split; [exact C2|].
  cbn. rewrite Hv. done.
Qed.

Lemma consistent_loadStateMachine names s :
  consistent s -> consistent (final (loadStateMachine names s)).
Proof.
  intros Hc. unfold loadStateMachine.
  destruct (artboard s) as [ab|], (_rive s); try done.
  match goal with |- context [forEachName ?b ?l s] =>
    pose proof (forEachName_invariant sameResources b
                  sameResources_refl sameResources_trans
                  loadOneMachine_sameResources l s) as Hloop;
    destruct (forEachName b l s) as [s1|e s1] end; cbn in *.
  - apply consistent_initInputFields.
    by apply (sameResources_consistent s).
  - by apply (sameResources_consistent s).
Qed.

Lemma consistent_loadArtboard name s :
  consistent s -> consistent (final (loadArtboard name s)).
Proof.
  intros Hc. unfold loadArtboard. apply consistent_updateSize.
  destruct Hc as (C1 & C2 & C3).
  open_sprite s.
  destruct f_ab, f_fl as [file|], f_cv; cbn;
    try (destruct (if truthy_str name then _ else _) as [d|]); cbn;
    try (repeat split; cbn; first [done | by apply C2 | by apply C1 | eauto]).
Qed.

Lemma setInputValue_sameResources name v s :
  sameResources s (setInputValue name v s).
Proof.
  unfold setInputValue.
  destruct (inputFields s !! name) as [f|]; [|apply sameResources_refl].
  destruct (decide _); [repeat split; done|apply sameResources_refl].
Qed.

Lemma fireTrigger_sameResources name s : sameResources s (fireTrigger name s).
Proof.
  unfold fireTrigger.
  destruct (inputFields s !! name) as [f|]; [|apply sameResources_refl].
  destruct (decide _); [repeat split; done|apply sameResources_refl].
Qed.

Lemma dispatchPointer_sameResources k p s :
  sameResources s (dispatchPointer k p s).
Proof.
  unfold dispatchPointer. destruct (pointerHandlers s); repeat split; done.
Qed.

Lemma destroy_sameResources s : sameResources s (destroy s).
Proof.
  unfold destroy.
  set (s1 := in_world (emit SpriteDestroy) s).
  apply (sameResources_trans s (disable s1)).
  { apply (sameResources_trans s s1); [repeat split; done|].
    apply disable_sameResources. }
  generalize (disable s1). intros x. open_sprite x.
  destruct f_ab, f_rd, f_fl; repeat split; done.
Qed.

Lemma andThen_invariant (R : RiveSprite -> RiveSprite -> Prop) o k s :
  (forall a b c, R a b -> R b c -> R a c) ->
  R s (final o) ->
  (forall x, R x (final (k x))) ->
  R s (final (o ;;; k)).
Proof.
  intros Htrans Ho Hk. destruct o as [s1|e s1]; cbn in *; [|done].
  eapply Htrans; [exact Ho|apply Hk].
Qed.

Lemma consistent_ready options s :
  consistent s -> consistent (final (ready options s)).
Proof.
  set (R := fun a b : RiveSprite => consistent a -> consistent b).
  change (R s (final (ready options s))).
  assert (Htrans : forall a b c, R a b -> R b c -> R a c) by (unfold R; auto).
  unfold ready.
  repeat (apply andThen_invariant; [exact Htrans| |]); unfold R.
  - apply consistent_loadArtboard.
  - intros x. apply consistent_loadStateMachine.
  - intros x. apply sameResources_consistent, playAnimation_sameResources.
  - intros x Hx. destruct (opt_autoPlay options); cbn.
    + revert Hx. apply sameResources_consistent, enable_sameResources.
    + destruct (_rive x) eqn:E; cbn; [|done].
      revert Hx. apply sameResources_consistent. repeat split; done.
Qed.

(** Every state a sprite can be in is consistent. *)
Lemma reachable_consistent s : reachable s -> consistent s.
Proof.
  induction 1 as [options host|s s' _ IH Hstep].
  - apply consistent_construct.
  - destruct Hstep.
    + by apply consistent_initRive.
    + eapply sameResources_consistent; [apply tick_sameResources|exact IH].
    + eapply sameResources_consistent; [apply dispatchPointer_sameResources|exact IH].
    + eapply sameResources_consistent; [apply enable_sameResources|exact IH].
    + eapply sameResources_consistent; [apply disable_sameResources|exact IH].
    + by apply consistent_loadArtboard.
    + by apply consistent_loadStateMachine.
    + eapply sameResources_consistent; [apply unloadStateMachine_sameResources|exact IH].
    + eapply sameResources_consistent; [apply playAnimation_sameResources|exact IH].
    + eapply sameResources_consistent; [apply stopAnimation_sameResources|exact IH].
    + by apply consistent_updateSize.
    + by apply consistent_initInputFields.
    + eapply sameResources_consistent; [apply setInputValue_sameResources|exact IH].
    + eapply sameResources_consistent; [apply fireTrigger_sameResources|exact IH].
    + eapply sameResources_consistent; [apply destroy_sameResources|exact IH].
    + by apply consistent_ready.
    + revert IH. apply sameResources_consistent. repeat split; done.
Qed.

(** * Further properties of the class *)

(** ** The enumeration methods *)

Lemma nth_error_is_lookup {A} (l : list A) i : nth_error l i = l !! i.
Proof.
  revert i. induction l as [|x l IH]; intros [|i]; cbn; try done.
Qed.

Lemma listByIndex_prefix {A} (l : list A) (name : A -> string) n : forall k,
  (k + n <= length l)%nat ->
  fold_left
    (fun acc i =>
       match acc with
       | Listed available =>
           match nth_error l i with
           | Some d => Listed (assignAt available i (name d))
           | None => ListingFails TypeError
           end
       | ListingFails e => ListingFails e
       end)
    (seq k n) (Listed (map name (take k l)))
  = Listed (map name (take (k + n) l)).
Proof.
  induction n as [|n IH]; intros k Hk; cbn.
  - by rewrite Nat.add_0_r.
  - destruct (lookup_lt_is_Some_2 l k) as [d Hd]; [lia|].
    rewrite nth_error_is_lookup, Hd.
    unfold assignAt. rewrite length_map, length_take_le by lia.
    rewrite Nat.ltb_irrefl, Nat.sub_diag. cbn.
    replace (map name (take k l) ++ [name d]) with (map name (take (S k) l)).
    + rewrite IH by lia. by rewrite Nat.add_succ_r.
    + rewrite (take_S_r _ _ _ Hd), map_app. done.
Qed.

Lemma listByIndex_all {A} (l : list A) (name : A -> string) :
  listByIndex (nth_error l) name (length l) = Listed (map name l).
Proof.
  unfold listByIndex.
  etrans; [apply (listByIndex_prefix l name (length l) 0); lia|].
  cbn. by rewrite firstn_all.
Qed.

(** X1: the three enumeration methods never fail; each returns the names of
    what is loaded, in index order, without holes, and the empty list when
    there is no file (for artboards) or no artboard (for state machines and
    animations). *)
Theorem listings_follow_the_scene (s : RiveSprite) :
  getAvailableArtboards s
  = Listed (match _file s with
            | Some f => map abd_name (file_artboards f)
            | None => []
            end) /\
  getAvailableStateMachines s
  = Listed (match artboard s with
            | Some ab => map smd_name (abd_stateMachines (ab_def ab))
            | None => []
            end) /\
  getAvailableAnimations s
  = Listed (match artboard s with
            | Some ab => map and_name (abd_animations (ab_def ab))
            | None => []
            end).
Proof.
  unfold getAvailableArtboards, getAvailableStateMachines, getAvailableAnimations.
  repeat split.
  - destruct (_file s) as [f|]; [|done]. apply listByIndex_all.
  - destruct (artboard s) as [ab|]; [|done]. apply listByIndex_all.
  - destruct (artboard s) as [ab|]; [|done]. apply listByIndex_all.
Qed.

Lemma find_named {A} (name : A -> string) (l : list A) (n : string) :
  In n (map name l) ->
  exists d, List.find (fun d => String.eqb (name d) n) l = Some d.
Proof.
  induction l as [|x l IH]; cbn; [done|].
  intros [H|H].
  - exists x. apply String.eqb_eq in H. by rewrite H.
  - destruct (String.eqb (name x) n); [eauto|by apply IH].
Qed.

(** X2: every name [getAvailableStateMachines] lists can be loaded: on a
    sprite in a consistent state, [loadStateMachine] with such a name returns,
    and the last active instance is then a new instance of the artboard's
    machine of that name. *)
Theorem listed_machine_loads (s : RiveSprite) (names : list string) (name : string) :
  consistent s ->
  getAvailableStateMachines s = Listed names ->
  In name names ->
  exists s1 m d ab,
    loadStateMachine (OneName name) s = Returns s1 /\
    last (stateMachines s1) = Some m /\
    artboard s = Some ab /\
    In d (abd_stateMachines (ab_def ab)) /\
    smd_name d = name /\
    sm_def m = Some d /\
    sm_handle m = nextHandle (world s) /\
    last (calls s1) = Some (SMNew (sm_handle m) (Some name) (ab_handle ab)).
Proof.
  intros Hc Hl Hin.
  destruct (listings_follow_the_scene s) as (_ & Hsm & _).
  rewrite Hsm in Hl. injection Hl as <-.
  destruct (artboard s) as [ab|] eqn:Ha; [|done].
  destruct (consistent_rive s ab Hc Ha) as [rive Hr].
  destruct (find_named smd_name _ name Hin) as [d Hd].
  destruct (loadStateMachine_named s ab rive name Ha Hr)
    as (s1 & m & E1 & L1 & D1 & _ & H1 & _ & C1 & _).
  pose proof (stateMachineByName_name ab name d Hd) as Hname.
  change (List.find _ _) with (stateMachineByName ab name) in Hd.
  rewrite Hd in D1, C1. cbn in C1. rewrite Hname in C1.
  exists s1, m, d, ab. repeat split; try done.
  - rewrite L1. apply last_snoc.
  - by apply find_some in Hd as [Hd _].
  - rewrite C1, !app_assoc. apply last_snoc.
Qed.

Lemma listed_machine_loads_witness :
  consistent busySprite /\
  getAvailableStateMachines busySprite = Listed ["Idle"%string; "Blink"%string] /\
  exists s1 m d ab,
    loadStateMachine (OneName "Blink") busySprite = Returns s1 /\
    last (stateMachines s1) = Some m /\
    artboard busySprite = Some ab /\
    In d (abd_stateMachines (ab_def ab)) /\
    smd_name d = "Blink"%string /\
    sm_def m = Some d /\
    sm_handle m = nextHandle (world busySprite) /\
    last (calls s1) = Some (SMNew (sm_handle m) (Some "Blink"%string) (ab_handle ab)).
Proof.
  split; [exact busySprite_consistent|].
  split; [reflexivity|].
  apply (listed_machine_loads busySprite ["Idle"%string; "Blink"%string] "Blink").
  - exact busySprite_consistent.
  - reflexivity.
  - right; left; reflexivity.
Defined.

(** ** Unloading and stopping *)

Lemma no_op_on_sprite s :
  set_stateMachines (stateMachines s) (in_world (emits []) s) = s /\
  set_animations (animations s) (in_world (emits []) s) = s.
Proof.
  unfold in_world. rewrite emits_nil. by destruct s.
Qed.

Lemma unloadStateMachine_engineMade name s :
  Forall (fun m => sm_nameProperty m = None) (stateMachines s) ->
  unloadStateMachine name s = s.
Proof.
  intros H. unfold unloadStateMachine. rewrite (dropMachines_none name _ H).
  apply no_op_on_sprite.
Qed.

Lemma stopAnimation_engineMade name s :
  Forall (fun a => an_nameProperty a = None) (animations s) ->
  stopAnimation name s = s.
Proof.
  intros H. unfold stopAnimation. rewrite (dropAnimations_none name _ H).
  apply no_op_on_sprite.
Qed.

(** X3: [unloadStateMachine(name)] takes out of the list every instance
    whose own [name] property is that name, keeps the others in their order,
    and calls [delete] once on each instance it took out, in list order, and
    on nothing else; it does not rebuild the registry.  The instances the
    engine makes have no [name] property: on a sprite that holds only such
    instances the call takes nothing out, deletes nothing and leaves the
    sprite exactly as it was, whatever the name. *)
Theorem unloadStateMachine_removes (name : string) (s : RiveSprite) :
  stateMachines (unloadStateMachine name s)
  = List.filter (fun m => negb (nameIs (sm_nameProperty m) name)) (stateMachines s) /\
  since s (unloadStateMachine name s)
  = map (fun m => SMDelete (sm_handle m))
        (List.filter (fun m => nameIs (sm_nameProperty m) name) (stateMachines s)) /\
  inputFields (unloadStateMachine name s) = inputFields s /\
  (Forall (fun m => sm_nameProperty m = None) (stateMachines s) ->
   unloadStateMachine name s = s).
Proof.
  split; [|split; [|split]]; [| | |apply unloadStateMachine_engineMade];
    unfold unloadStateMachine; rewrite dropMachines_filter;
    [done|by apply since_app|done].
Qed.

(** X4: [stopAnimation(name)] takes out of the list every animation instance
    whose own [name] property is that name, keeps the others in their order,
    and calls [delete] once on each instance it took out and on nothing else;
    the state machines stay as they are.  On a sprite that holds only
    instances as the engine makes them, without a [name] property, the call
    takes nothing out, deletes nothing and leaves the sprite exactly as it
    was, whatever the name. *)
Theorem stopAnimation_removes (name : string) (s : RiveSprite) :
  animations (stopAnimation name s)
  = List.filter (fun a => negb (nameIs (an_nameProperty a) name)) (animations s) /\
  since s (stopAnimation name s)
  = map (fun a => AnimDelete (an_handle a))
        (List.filter (fun a => nameIs (an_nameProperty a) name) (animations s)) /\
  stateMachines (stopAnimation name s) = stateMachines s /\
  (Forall (fun a => an_nameProperty a = None) (animations s) ->
   stopAnimation name s = s).
Proof.
  split; [|split; [|split]]; [| | |apply stopAnimation_engineMade];
    unfold stopAnimation; rewrite dropAnimations_filter;
    [done|by apply since_app|done].
Qed.

(** ** Playing an animation again *)

Lemma animationByName_name ab name d :
  animationByName ab name = Some d -> and_name d = name.
Proof.
  unfold animationByName. intros H.
  apply find_some in H as [_ H]. by apply String.eqb_eq.
Qed.

(** What one call [playAnimation(name)] does, whether or not the artboard has
    an animation of that name. *)
Lemma playAnimation_named s ab rive name :
  artboard s = Some ab -> _rive s = Some rive ->
  exists s1 a,
    playAnimation (OneName name) s = Returns s1 /\
    animations s1 = (dropAnimations name (animations s)).1 ++ [a] /\
    an_def a = animationByName ab name /\
    an_nameProperty a = None /\
    an_handle a = nextHandle (world s) /\
    (nextHandle (world s) < nextHandle (world s1))%nat /\
    calls s1
    = calls s ++ (dropAnimations name (animations s)).2
      ++ [AnimNew (an_handle a) (and_name <$> animationByName ab name)
            (ab_handle ab)] /\
    artboard s1 = Some ab /\ _rive s1 = Some rive /\
    stateMachines s1 = stateMachines s /\
    inputFields s1 = inputFields s.
Proof.
  intros Ha Hr.
  unfold playAnimation. rewrite Ha. cbn [forEachName].
  unfold playOneAnimation. rewrite Ha.
  unfold stopAnimation.
  destruct (dropAnimations name (animations s)) as [kept dels] eqn:Hdrop.
  open_sprite s. subst f_ab f_rv.
  eexists _, _. split; [reflexivity|]. cbn.
  repeat split; try done.
  - lia.
  - unfold calls. cbn. by rewrite <- app_assoc.
Qed.

(** X5: [stopAnimation], like [unloadStateMachine], goes by the [name]
    property.  On a sprite whose animation instances are as the engine made
    them, playing an animation of the artboard twice in a row leaves two live
    instances of it, the first and the second, under different handles;
    neither call deletes anything, and the state machines are not touched. *)
Theorem playAnimation_twice (s : RiveSprite) (ab : Artboard)
  (name : string) (d : AnimationDef) :
  consistent s ->
  artboard s = Some ab ->
  animationByName ab name = Some d ->
  Forall (fun a => an_nameProperty a = None) (animations s) ->
  exists s1 s2 a1 a2,
    playAnimation (OneName name) s = Returns s1 /\
    playAnimation (OneName name) s1 = Returns s2 /\
    animations s1 = animations s ++ [a1] /\
    animations s2 = animations s ++ [a1; a2] /\
    an_def a1 = Some d /\ an_def a2 = Some d /\
    an_handle a1 <> an_handle a2 /\
    since s s1 = [AnimNew (an_handle a1) (Some name) (ab_handle ab)] /\
    since s1 s2 = [AnimNew (an_handle a2) (Some name) (ab_handle ab)] /\
    stateMachines s2 = stateMachines s.
Proof.
  intros Hc Ha Hd Hmade.
  destruct (consistent_rive s ab Hc Ha) as [rive Hr].
  pose proof (animationByName_name ab name d Hd) as Hname.
  destruct (playAnimation_named s ab rive name Ha Hr)
    as (s1 & a1 & E1 & L1 & D1 & P1 & H1 & N1 & C1 & A1 & R1 & M1 & _).
  destruct (playAnimation_named s1 ab rive name A1 R1)
    as (s2 & a2 & E2 & L2 & D2 & P2 & H2 & N2 & C2 & A2 & R2 & M2 & _).
  rewrite (dropAnimations_none name _ Hmade) in L1, C1. cbn in L1, C1.
  assert (Hmade1 : Forall (fun a => an_nameProperty a = None) (animations s1)).
  { rewrite L1. apply Forall_app. split; [done|]. by constructor. }
  rewrite (dropAnimations_none name _ Hmade1) in L2, C2. cbn in L2, C2.
  rewrite Hd in D1, D2, C1, C2. cbn in C1, C2. rewrite Hname in C1, C2.
  exists s1, s2, a1, a2.
  repeat split; try done.
  - by rewrite L2, L1, <- app_assoc.
  - lia.
  - by apply since_app.
  - by apply since_app.
  - congruence.
Qed.

(** The busy sprite plays [idle]; playing it twice more makes three. *)
Lemma playAnimation_twice_witness :
  consistent busySprite /\
  artboard busySprite = Some {| ab_handle := 1; ab_def := mainArtboard |} /\
  animationByName {| ab_handle := 1; ab_def := mainArtboard |} "idle"
    = Some {| and_name := "idle" |} /\
  map an_name (animations busySprite) = ["idle"%string] /\
  exists s1 s2 a1 a2,
    playAnimation (OneName "idle") busySprite = Returns s1 /\
    playAnimation (OneName "idle") s1 = Returns s2 /\
    animations s1 = animations busySprite ++ [a1] /\
    animations s2 = animations busySprite ++ [a1; a2] /\
    an_def a1 = Some {| and_name := "idle" |} /\
    an_def a2 = Some {| and_name := "idle" |} /\
    an_handle a1 <> an_handle a2 /\
    since busySprite s1 = [AnimNew (an_handle a1) (Some "idle"%string) 1] /\
    since s1 s2 = [AnimNew (an_handle a2) (Some "idle"%string) 1] /\
    stateMachines s2 = stateMachines busySprite.
Proof.
  split; [exact busySprite_consistent|].
  split; [reflexivity|]. split; [reflexivity|]. split; [reflexivity|].
  apply (playAnimation_twice busySprite
           {| ab_handle := 1; ab_def := mainArtboard |} "idle" {| and_name := "idle" |}).
  - exact busySprite_consistent.
  - reflexivity.
  - reflexivity.
  - vm_compute. repeat constructor.
Defined.

(** ** Loading an artboard that is there *)

Lemma artboardByName_name file name d :
  artboardByName file name = Some d -> abd_name d = name.
Proof.
  unfold artboardByName. intros H.
  apply find_some in H as [_ H]. by apply String.eqb_eq.
Qed.

(** X6: when the file has the artboard asked for (by a non-empty name, or
    its first artboard when no name is given), [loadArtboard] on a sprite in a
    consistent state returns with a fresh instance of it installed, after
    deleting the previous artboard if there was one.  The alignment is
    computed and cached for the frame [0, 0, W, H], where [W] is [maxWidth] if
    that is set (not zero) and the artboard's own width otherwise, likewise
    [H]; the renderer is aligned the same way and the canvas is resized to
    [W] by [H]. *)
Theorem loadArtboard_installs (arg : option string) (s : RiveSprite)
  (file : File) (rive : RiveCanvas) (d : ArtboardDef) :
  consistent s ->
  _file s = Some file ->
  _rive s = Some rive ->
  requestedArtboard arg file = Some d ->
  exists s',
    loadArtboard arg s = Returns s' /\
    artboard s' = Some {| ab_handle := nextHandle (world s); ab_def := d |} /\
    (truthy_str arg = true -> Some (abd_name d) = arg) /\
    _aligned s'
    = Some (computeAlignment rive (fit s) (align s)
              (targetFrame s (abd_bounds d)) (abd_bounds d)) /\
    _canvas s'
    = Some {| cv_width := maxX (targetFrame s (abd_bounds d));
              cv_height := maxY (targetFrame s (abd_bounds d)) |} /\
    since s s'
    = match artboard s with
      | Some old => [ArtboardDelete (ab_handle old)]
      | None => []
      end
      ++ [ArtboardNew (nextHandle (world s)) (abd_name d);
          RendererAlign (fit s) (align s) (targetFrame s (abd_bounds d)) (abd_bounds d);
          TextureUpdate].
Proof.
  intros (_ & Hsetup & _) Hf Hr Hd.
  destruct Hsetup as ([cv Hcv] & [rd Hrd] & _); [eauto|].
  assert (Hnamed : truthy_str arg = true -> Some (abd_name d) = arg).
  { unfold requestedArtboard in Hd. intros Ht. rewrite Ht in Hd.
    destruct arg as [n|]; [|done]. cbn in Hd.
    by rewrite (artboardByName_name file n d Hd). }
  unfold requestedArtboard in Hd.
  unfold loadArtboard, updateSize, targetFrame.
  open_sprite s. subst f_fl f_rv f_cv f_rd.
  destruct f_ab as [old|]; cbn; rewrite Hd; cbn;
    (eexists; split; [reflexivity|]; cbn; repeat split; try done).
  - unfold since, calls. cbn. rewrite <- !app_assoc. by rewrite drop_app_length.
  - unfold since, calls. cbn. rewrite <- !app_assoc. by rewrite drop_app_length.
Qed.

Lemma loadArtboard_installs_witness :
  consistent busySprite /\
  _file busySprite = Some sceneFile /\
  _rive busySprite = Some stretchEngine /\
  requestedArtboard (Some "Other"%string) sceneFile = Some otherArtboard /\
  exists s',
    loadArtboard (Some "Other"%string) busySprite = Returns s' /\
    artboard s' = Some {| ab_handle := nextHandle (world busySprite);
                          ab_def := otherArtboard |} /\
    (truthy_str (Some "Other"%string) = true ->
     Some (abd_name otherArtboard) = Some "Other"%string) /\
    _aligned s'
    = Some (computeAlignment stretchEngine (fit busySprite) (align busySprite)
              (targetFrame busySprite (abd_bounds otherArtboard))
              (abd_bounds otherArtboard)) /\
    _canvas s'
    = Some {| cv_width := maxX (targetFrame busySprite (abd_bounds otherArtboard));
              cv_height := maxY (targetFrame busySprite (abd_bounds otherArtboard)) |} /\
    since busySprite s'
    = match artboard busySprite with
      | Some old => [ArtboardDelete (ab_handle old)]
      | None => []
      end
      ++ [ArtboardNew (nextHandle (world busySprite)) (abd_name otherArtboard);
          RendererAlign (fit busySprite) (align busySprite)
            (targetFrame busySprite (abd_bounds otherArtboard))
            (abd_bounds otherArtboard);
          TextureUpdate].
Proof.
  split; [exact busySprite_consistent|].
  split; [reflexivity|]. split; [reflexivity|]. split; [reflexivity|].
  apply (loadArtboard_installs (Some "Other"%string) busySprite sceneFile
           stretchEngine otherArtboard).
  - exact busySprite_consistent.
  - reflexivity.
  - reflexivity.
  - reflexivity.
Defined.



(** ** What the registry holds *)

Lemma registerInput_field m fields i inp :
  input m i = Some inp ->
  registerInput m fields i = <[input_name inp := inp]> fields.
Proof.
  intros H. unfold registerInput, asBool, asTrigger, asNumber. rewrite H.
  destruct (decide (input_type inp = KBool)); [done|].
  destruct (decide (input_type inp = KTrigger)); done.
Qed.

(** The index loop over a machine's inputs registers them one after another. *)
Lemma registerMachine_inputs_from m n : forall k fields,
  (k + n = inputCount m)%nat ->
  fold_left (registerInput m) (seq k n) fields
  = fold_left (fun f inp => <[input_name inp := inp]> f) (drop k (sm_inputs m)) fields.
Proof.
  unfold inputCount.
  induction n as [|n IH]; intros k fields Hk; cbn.
  - by rewrite drop_ge by lia.
  - destruct (lookup_lt_is_Some_2 (sm_inputs m) k) as [inp Hinp]; [lia|].
    rewrite (registerInput_field m fields k inp)
      by (unfold input; by rewrite nth_error_is_lookup).
    rewrite IH by lia. by rewrite (drop_S _ _ _ Hinp).
Qed.

Lemma registerMachine_inputs m fields :
  registerMachine fields m
  = fold_left (fun f inp => <[input_name inp := inp]> f) (sm_inputs m) fields.
Proof.
  unfold registerMachine. by rewrite (registerMachine_inputs_from m _ 0) by lia.
Qed.

Lemma registerMachines_inputs ms : forall fields,
  fold_left registerMachine ms fields
  = fold_left (fun f inp => <[input_name inp := inp]> f) (flat_map sm_inputs ms) fields.
Proof.
  induction ms as [|m ms IH]; intros fields; cbn; [done|].
  by rewrite fold_left_app, IH, registerMachine_inputs.
Qed.

Lemma find_last_app {A} (p : A -> bool) (l : list A) (x : A) :
  List.find p (rev (l ++ [x]))
  = if p x then Some x else List.find p (rev l).
Proof. rewrite rev_app_distr. done. Qed.

Lemma registered_last (ins : list SMIInput) : forall name (fields : gmap string SMIInput),
  fold_left (fun f inp => <[input_name inp := inp]> f) ins fields !! name
  = match lastNamed name ins with
    | Some inp => Some inp
    | None => fields !! name
    end.
Proof.
  induction ins as [|x ins IH] using rev_ind; intros name fields; [done|].
  rewrite fold_left_app. cbn. unfold lastNamed. rewrite find_last_app.
  destruct (String.eqb (input_name x) name) eqn:E.
  - apply String.eqb_eq in E. subst. apply lookup_insert_eq.
  - apply String.eqb_neq in E. rewrite lookup_insert_ne by done. apply IH.
Qed.

(** X8: when [loadStateMachine] returns on a sprite that has an artboard and
    the engine, the registry is exactly the inputs of the machines that are
    then active: a name looks up the last input of that name, in the order of
    the machines and of each machine's inputs (on a collision the last
    writer wins), and it looks up nothing exactly when no active machine has
    an input of that name.  Fields of machines no longer active are gone. *)
Theorem registry_after_load (names : Names) (s s1 : RiveSprite)
  (ab : Artboard) (rive : RiveCanvas) :
  artboard s = Some ab ->
  _rive s = Some rive ->
  loadStateMachine names s = Returns s1 ->
  forall name, inputFields s1 !! name = lastNamed name (activeInputs s1).
Proof.
  intros Ha Hr Hl name. unfold loadStateMachine in Hl. rewrite Ha, Hr in Hl.
  match type of Hl with context [forEachName ?b ?l s] =>
    destruct (forEachName b l s) as [s0|e s0] end; [|done].
  cbn in Hl. unfold initInputFields in Hl.
  destruct (_rive s0); [|done]. injection Hl as <-.
  cbn -[lastNamed]. rewrite registerMachines_inputs, registered_last.
  unfold activeInputs. cbn -[lastNamed].
  destruct (lastNamed _ _); [done|apply lookup_empty].
Qed.

Lemma registry_after_load_witness :
  artboard stillSprite = Some {| ab_handle := 1; ab_def := mainArtboard |} /\
  _rive stillSprite = Some stretchEngine /\
  (exists s1,
     loadStateMachine (OneName "Blink") stillSprite = Returns s1 /\
     forall name, inputFields s1 !! name = lastNamed name (activeInputs s1)).
Proof.
  split; [reflexivity|]. split; [reflexivity|].
  eexists. split; [vm_compute; reflexivity|].
  apply (registry_after_load (OneName "Blink") stillSprite _
           {| ab_handle := 1; ab_def := mainArtboard |} stretchEngine).
  - reflexivity.
  - reflexivity.
  - vm_compute; reflexivity.
Defined.

(** ** Declared defaults *)

Lemma find_over_app {A} (p : A -> bool) (a b : list A) :
  List.find p (a ++ b)
  = match List.find p a with
    | Some x => Some x
    | None => List.find p b
    end.
Proof.
  induction a as [|x a IH]; cbn; [done|]. destruct (p x); [done|apply IH].
Qed.

Lemma lastNamed_app name a b :
  lastNamed name (a ++ b)
  = match lastNamed name b with
    | Some i => Some i
    | None => lastNamed name a
    end.
Proof. unfold lastNamed. by rewrite rev_app_distr, find_over_app. Qed.

Lemma lastNamed_cons name x l :
  lastNamed name (x :: l)
  = match lastNamed name l with
    | Some i => Some i
    | None => if String.eqb (input_name x) name then Some x else None
    end.
Proof. apply (lastNamed_app name [x] l). Qed.

Lemma lastDeclared_cons name x l :
  lastDeclared name (x :: l)
  = match lastDeclared name l with
    | Some d => Some d
    | None => if String.eqb (idef_name x) name then Some x else None
    end.
Proof. unfold lastDeclared. cbn. by rewrite find_over_app. Qed.

Lemma instantiateInputs_defaults ds : forall w,
  Forall2 (instantiated (instantiateInputs ds w).2) ds (instantiateInputs ds w).1 /\
  (forall h, (h < nextHandle w)%nat ->
     input_values (instantiateInputs ds w).2 !! h = input_values w !! h).
Proof.
  induction ds as [|d ds IH]; intros w; cbn.
  - split; [constructor|done].
  - match goal with |- context [instantiateInputs ds ?x] =>
      specialize (IH x); destruct (instantiateInputs ds x) as [ins w3] end.
    cbn in *. destruct IH as [Hall Hkeep].
    destruct (idef_default d) as [v0|] eqn:Hd0; cbn in *.
    + split.
      * constructor; [|done]. repeat split; cbn.
        intros v Hv. rewrite Hkeep by lia.
        rewrite Hd0 in Hv. injection Hv as <-. apply lookup_insert_eq.
      * intros h Hh. rewrite Hkeep by lia. apply lookup_insert_ne. lia.
    + split.
      * constructor; [|done]. repeat split; cbn.
        intros v Hv. by rewrite Hd0 in Hv.
      * intros h Hh. rewrite Hkeep by lia. done.
Qed.

Lemma last_instantiated w name ds ins :
  Forall2 (instantiated w) ds ins ->
  match lastDeclared name ds with
  | Some d => exists i, lastNamed name ins = Some i /\ instantiated w d i
  | None => lastNamed name ins = None
  end.
Proof.
  induction 1 as [|d0 i0 ds ins H0 _ IH]; [done|].
  rewrite lastDeclared_cons, lastNamed_cons.
  destruct (lastDeclared name ds) as [d'|].
  - destruct IH as (i & -> & Hi). eauto.
  - rewrite IH. pose proof H0 as (Hn & _). rewrite Hn.
    destruct (String.eqb (idef_name d0) name) eqn:E; [|done].
    by exists i0.
Qed.

(** X9: right after a state machine of the artboard is loaded by name, each
    of its declared inputs is in the registry under its name, with its
    declared kind, and for a boolean or a number input [getInputValue]
    returns the declared initial value (for a name declared more than once in
    the machine, the last declaration counts).  A trigger has no value, and
    nothing is said of what reading one gives. *)
Theorem loaded_inputs_read_defaults (s : RiveSprite) (ab : Artboard)
  (name field : string) (d : StateMachineDef) (idef : InputDef) :
  consistent s ->
  artboard s = Some ab ->
  stateMachineByName ab name = Some d ->
  lastDeclared field (smd_inputs d) = Some idef ->
  exists s1 inp,
    loadStateMachine (OneName name) s = Returns s1 /\
    inputFields s1 !! field = Some inp /\
    input_type inp = idef_kind idef /\
    (forall v, idef_default idef = Some v -> getInputValue field s1 = Some v).
Proof.
  intros Hc Ha Hd Hl.
  destruct (consistent_rive s ab Hc Ha) as [rive Hr].
  unfold loadStateMachine. rewrite Ha, Hr. cbn [forEachName].
  unfold loadOneMachine. rewrite Ha, Hd.
  unfold unloadStateMachine.
  destruct (dropMachines name (stateMachines s)) as [kept dels].
  open_sprite s. subst f_ab f_rv.
  unfold newStateMachineInstance. cbn.
  match goal with |- context [instantiateInputs ?ds ?w0] =>
    pose proof (instantiateInputs_defaults ds w0) as [Hall _];
    destruct (instantiateInputs ds w0) as [ins w2] end.
  cbn in *.
  pose proof (last_instantiated w2 field _ _ Hall) as Hlast.
  rewrite Hl in Hlast. destruct Hlast as (i & Hi & Hn & Hk & Hv).
  assert (Hfield : fold_left registerMachine
                     (kept
                      ++ [{| sm_handle := nextHandle (emits dels f_w);
                             sm_def := Some d; sm_nameProperty := None;
                             sm_core := 0; sm_changed := []; sm_inputs := ins |}])
                     ∅ !! field
                   = Some i).
  { rewrite registerMachines_inputs, registered_last, flat_map_app, lastNamed_app.
    cbn -[lastNamed]. rewrite app_nil_r, Hi. done. }
  eexists _, i. split; [reflexivity|].
  unfold getInputValue. cbn -[lastNamed]. cbn -[lastNamed] in Hfield.
  rewrite Hfield.
  repeat split; done.
Qed.

Lemma loaded_inputs_read_defaults_witness :
  consistent stillSprite /\
  artboard stillSprite = Some {| ab_handle := 1; ab_def := mainArtboard |} /\
  stateMachineByName {| ab_handle := 1; ab_def := mainArtboard |} "Idle"
    = Some idleMachine /\
  lastDeclared "Level" (smd_inputs idleMachine)
    = Some {| idef_name := "Level"; idef_decl := DeclNumber 0;
              idef_write := fun v => v |} /\
  exists s1 inp,
    loadStateMachine (OneName "Idle") stillSprite = Returns s1 /\
    inputFields s1 !! "Level"%string = Some inp /\
    input_type inp = KNumber /\
    (forall v, Some (VNum 0) = Some v -> getInputValue "Level" s1 = Some v).
Proof.
  split; [exact stillSprite_consistent|].
  split; [reflexivity|]. split; [reflexivity|]. split; [reflexivity|].
  apply (loaded_inputs_read_defaults stillSprite
           {| ab_handle := 1; ab_def := mainArtboard |} "Idle" "Level" idleMachine
           {| idef_name := "Level"; idef_decl := DeclNumber 0;
              idef_write := fun v => v |}).
  - exact stillSprite_consistent.
  - reflexivity.
  - reflexivity.
  - reflexivity.
Defined.

(** ** The frame driver, further *)

Lemma truthy_num_nonzero q : ~ q == 0 -> truthy_num q = true.
Proof.
  intros H. unfold truthy_num. destruct (Qeq_bool q 0) eqn:E; [|done].
  apply Qeq_bool_iff in E. done.
Qed.

Lemma truthy_num_zero q : q == 0 -> truthy_num q = false.
Proof.
  intros H. unfold truthy_num. apply Qeq_bool_iff in H. by rewrite H.
Qed.

(** X11: a frame step leaves its tick time as the new baseline, and the
    step after it, at time [t2], hands [(t2 - t1) / 1000] seconds to
    [artboard.advance]; the very first step (no baseline yet) hands it zero.
    The baseline test is truthiness: a step at time 0 leaves no baseline, and
    the step after it advances by zero again. *)
Theorem steps_measure_time (t1 t2 : Q) (s : RiveSprite) (ab : Artboard) :
  consistent s ->
  artboard s = Some ab ->
  _lastTime (renderLoop t1 s) = t1 /\
  (~ t1 == 0 ->
     advances (since (renderLoop t1 s) (renderLoop t2 (renderLoop t1 s)))
     = [(t2 - t1) / 1000]) /\
  (truthy_num (_lastTime s) = true ->
     advances (since s (renderLoop t1 s)) = [(t1 - _lastTime s) / 1000]) /\
  (truthy_num (_lastTime s) = false ->
     exists e, advances (since s (renderLoop t1 s)) = [e] /\ e == 0) /\
  (t1 == 0 ->
     exists e, advances (since (renderLoop t1 s) (renderLoop t2 (renderLoop t1 s))) = [e]
               /\ e == 0).
Proof.
  intros Hc Ha.
  destruct (consistent_renderer s ab Hc Ha) as [r Hr].
  destruct (renderLoop_fields t1 s) as (Ea & Er & _ & _ & _ & _ & _ & _ & Hlast).
  assert (Hstep : forall t x, artboard x = Some ab -> _renderer x = Some r ->
            advances (since x (renderLoop t x)) = [elapsedAt t x]).
  { intros t x Hx Hxr. rewrite renderLoop_since.
    by apply (stepCalls_one_advance t x ab r). }
  split; [done|].
  rewrite !Hstep by congruence. unfold elapsedAt. rewrite Hlast.
  split; [|split; [|split]].
  - intros Hnz. by rewrite (truthy_num_nonzero t1 Hnz).
  - by intros ->.
  - intros ->. eexists. split; [reflexivity|]. field.
  - intros Hz. rewrite (truthy_num_zero t1 Hz). eexists. split; [reflexivity|]. field.
Qed.

(** X12: [enable()] asks for at most one frame: it requests one only when the
    sprite holds no handle and the engine is there, and calling it again
    changes nothing (frame handles are never 0). *)
Theorem enable_idempotent (s : RiveSprite) :
  nextFrame (world s) <> 0%nat ->
  enable (enable s) = enable s /\
  _enabled (enable s) = true /\
  since s (enable s)
  = match _animFrame s, _rive s with
    | O, Some _ => [RequestFrame (nextFrame (world s))]
    | _, _ => []
    end.
Proof.
  intros Hn. unfold enable, since, calls. open_sprite s.
  destruct f_af as [|n], f_rv as [rive|]; cbn;
    rewrite ?drop_all, ?drop_app_length; try done.
  destruct (nextFrame f_w); done.
Qed.

Lemma enable_idempotent_witness :
  nextFrame (world stillSprite) <> 0%nat /\
  enable (enable stillSprite) = enable stillSprite /\
  _enabled (enable stillSprite) = true /\
  since stillSprite (enable stillSprite)
  = match _animFrame stillSprite, _rive stillSprite with
    | O, Some _ => [RequestFrame (nextFrame (world stillSprite))]
    | _, _ => []
    end.
Proof.
  split; [vm_compute; discriminate|].
  apply (enable_idempotent stillSprite). vm_compute; discriminate.
Defined.

(** X13: [disable()] right after [enable()], before any frame has run, takes
    back the request [enable()] made: with nothing else scheduled the schedule
    is empty again, the sprite holds no handle, and no frame step runs in any
    later tick. *)
Theorem enable_then_disable (s : RiveSprite) (rive : RiveCanvas) (ts : list Q) :
  _rive s = Some rive ->
  _animFrame s = 0%nat ->
  nextFrame (world s) <> 0%nat ->
  pending (world s) = [] ->
  pending (world (disable (enable s))) = [] /\
  _animFrame (disable (enable s)) = 0%nat /\
  _enabled (disable (enable s)) = false /\
  since s (disable (enable s))
  = [RequestFrame (nextFrame (world s)); CancelFrame (nextFrame (world s))] /\
  ticks ts (disable (enable s)) = disable (enable s).
Proof.
  intros Hr Ha Hn Hp.
  assert (Hpend : pending (world (disable (enable s))) = []).
  { unfold enable, disable. open_sprite s. subst. cbn.
    destruct (nextFrame f_w) as [|n] eqn:E; [done|]. cbn.
    rewrite Hp. cbn. by rewrite Nat.eqb_refl. }
  split; [done|]. split; [|split; [|split]].
  - unfold enable, disable. open_sprite s. subst. cbn.
    by destruct (nextFrame f_w).
  - by destruct (disable_fields (enable s)) as (E & _).
  - unfold enable, disable, since, calls. open_sprite s. subst. cbn.
    destruct (nextFrame f_w) as [|n] eqn:E; [done|]. cbn.
    rewrite <- app_assoc. by rewrite drop_app_length.
  - by apply ticks_nothing_pending.
Qed.

Lemma enable_then_disable_witness :
  _rive drawnSprite = Some stretchEngine /\
  _animFrame drawnSprite = 0%nat /\
  nextFrame (world drawnSprite) <> 0%nat /\
  pending (world drawnSprite) = [] /\
  pending (world (disable (enable drawnSprite))) = [] /\
  _animFrame (disable (enable drawnSprite)) = 0%nat /\
  _enabled (disable (enable drawnSprite)) = false /\
  since drawnSprite (disable (enable drawnSprite))
  = [RequestFrame (nextFrame (world drawnSprite));
     CancelFrame (nextFrame (world drawnSprite))] /\
  ticks [2000; 3000] (disable (enable drawnSprite)) = disable (enable drawnSprite).
Proof.
  split; [vm_compute; reflexivity|]. split; [vm_compute; reflexivity|].
  split; [vm_compute; discriminate|]. split; [vm_compute; reflexivity|].
  apply (enable_then_disable drawnSprite stretchEngine [2000; 3000]).
  - vm_compute; reflexivity.
  - vm_compute; reflexivity.
  - vm_compute; discriminate.
  - vm_compute; reflexivity.
Defined.

(** A run of steps at one tick, for a sprite that is running. *)
Lemma steps_while_enabled time due : forall s rive ab r,
  _enabled s = true -> _rive s = Some rive ->
  artboard s = Some ab -> _renderer s = Some r ->
  let s' := fold_left (fun acc (_ : nat) => renderLoop time acc) due s in
  _enabled s' = true /\ _rive s' = Some rive /\
  artboard s' = Some ab /\ _renderer s' = Some r /\
  _animFrame s' = _animFrame s /\
  length (pending (world s')) = (length (pending (world s)) + length due)%nat /\
  exists more, calls s' = calls s ++ more /\ length (advances more) = length due.
Proof.
  induction due as [|d due IH]; intros s rive ab r He Hv Ha Hr; cbn.
  - repeat split; try done; try lia. exists []. by rewrite app_nil_r.
  - destruct (renderLoop_fields time s) as (Ea & Er & Ev & _ & _ & _ & Ee & Eaf & _).
    pose proof (renderLoop_pending time s) as Ep. rewrite Hv, He in Ep.
    pose proof (renderLoop_calls time s) as Ec.
    destruct (IH (renderLoop time s) rive ab r)
      as (H1 & H2 & H3 & H4 & H5 & H6 & more & Hm & Hadv); try congruence.
    repeat split; try congruence.
    + rewrite H6, Ep, length_app. cbn. lia.
    + exists ((stepCalls time s ++ reschedule s) ++ more). split.
      * rewrite Hm, Ec. by rewrite <- !app_assoc.
      * rewrite advances_app, (stepCalls_one_advance time s ab r Ha Hr), length_app.
        cbn. by rewrite Hadv.
Qed.

(** X14: while the sprite is enabled the loop keeps itself going: in a tick,
    every pending request runs one frame step, each step advances the
    artboard once and requests exactly one further frame, so after the tick
    as many requests are pending as before it.  The handle the sprite holds
    is not updated by these requests. *)
Theorem loop_keeps_running (t : Q) (s : RiveSprite) (ab : Artboard) :
  consistent s ->
  artboard s = Some ab ->
  _enabled s = true ->
  _enabled (tick t s) = true /\
  length (pending (world (tick t s))) = length (pending (world s)) /\
  length (advances (since s (tick t s))) = length (pending (world s)) /\
  _animFrame (tick t s) = _animFrame s.
Proof.
  intros Hc Ha He.
  destruct (consistent_renderer s ab Hc Ha) as [r Hr].
  destruct (consistent_rive s ab Hc Ha) as [rive Hv].
  destruct (pending (world s)) as [|d0 due0] eqn:Hp.
  { rewrite (tick_nothing_pending t s Hp), ?Hp.
    repeat split; try done. unfold since. by rewrite drop_all. }
  unfold tick, take_pending. rewrite Hp.
  match goal with |- context [fold_left _ ?due ?x] =>
    destruct (steps_while_enabled t due x rive ab r He Hv Ha Hr)
      as (H1 & _ & _ & _ & H5 & H6 & more & Hm & Hadv) end.
  cbn in H6. repeat split; try done.
  rewrite (since_app s _ more); done.
Qed.

Lemma loop_keeps_running_witness :
  consistent busySprite /\
  artboard busySprite = Some {| ab_handle := 1; ab_def := mainArtboard |} /\
  _enabled busySprite = true /\
  _enabled (tick 1000 busySprite) = true /\
  length (pending (world (tick 1000 busySprite))) = length (pending (world busySprite)) /\
  length (advances (since busySprite (tick 1000 busySprite)))
  = length (pending (world busySprite)) /\
  _animFrame (tick 1000 busySprite) = _animFrame busySprite.
Proof.
  split; [exact busySprite_consistent|].
  split; [vm_compute; reflexivity|]. split; [vm_compute; reflexivity|].
  apply (loop_keeps_running 1000 busySprite {| ab_handle := 1; ab_def := mainArtboard |}).
  - exact busySprite_consistent.
  - vm_compute; reflexivity.
  - vm_compute; reflexivity.
Defined.

(** ** Destruction *)

(** X15: [destroy()] releases in dependency order: after the host sprite's
    own [destroy] it stops the loop (cancelling the request whose handle it
    holds), then calls [delete] once on every active state machine, then on
    every active animation, then on the artboard, the renderer and the file,
    each only if present.  It does not clear the lists or the fields: the
    deleted instances stay in [stateMachines] and [animations]. *)
Theorem destroy_releases_in_order (s : RiveSprite) :
  since s (destroy s)
  = [SpriteDestroy]
    ++ match _animFrame s, _rive s with
       | S _, Some _ => [CancelFrame (_animFrame s)]
       | _, _ => []
       end
    ++ map (fun m => SMDelete (sm_handle m)) (stateMachines s)
    ++ map (fun a => AnimDelete (an_handle a)) (animations s)
    ++ match artboard s with
       | Some ab => [ArtboardDelete (ab_handle ab)]
       | None => []
       end
    ++ match _renderer s with Some _ => [RendererDelete] | None => [] end
    ++ match _file s with Some _ => [FileDelete] | None => [] end /\
  _enabled (destroy s) = false /\
  stateMachines (destroy s) = stateMachines s /\
  animations (destroy s) = animations s /\
  artboard (destroy s) = artboard s.
Proof.
  unfold destroy, disable, since, calls, in_world. open_sprite s.
  destruct f_af as [|n], f_rv as [rive|], f_ab as [ab|], f_rd as [r|], f_fl as [f|];
    cbn; rewrite <- ?app_assoc; cbn.
  all: (split; [|done]).
  all: by rewrite drop_app_length, ?app_nil_r.
Qed.

(** ** What nothing changes, and what the lists hold *)

Lemma sameCast_refl s : sameCast s s.
Proof. repeat split; done. Qed.

Lemma sameCast_trans a b c : sameCast a b -> sameCast b c -> sameCast a c.
Proof.
  intros ((A1 & A2 & A3 & A4) & A5 & A6 & A7 & A8)
         ((B1 & B2 & B3 & B4) & B5 & B6 & B7 & B8).
  repeat split; congruence.
Qed.

Lemma sameCast_keepsMade s s' : sameCast s s' -> keepsMade s s'.
Proof.
  intros (Hw & _ & _ & Hm & Ha). split; [done|].
  unfold engineMade. intros [H1 H2]. split.
  - apply (Forall_map sm_nameProperty (fun p => p = None)).
    rewrite Hm. by apply Forall_map.
  - apply (Forall_map an_nameProperty (fun p => p = None)).
    rewrite Ha. by apply Forall_map.
Qed.

Lemma keepsMade_refl s : keepsMade s s.
Proof. split; [repeat split; done|done]. Qed.

Lemma keepsMade_trans a b c : keepsMade a b -> keepsMade b c -> keepsMade a c.
Proof.
  intros ((A1 & A2 & A3 & A4) & HA) ((B1 & B2 & B3 & B4) & HB).
  split; [repeat split; congruence|auto].
Qed.

Lemma advanced_names e ms : map sm_name (map (sm_advance e) ms) = map sm_name ms.
Proof.
  induction ms as [|m ms IH]; cbn; [done|]. rewrite IH. f_equal.
  unfold sm_name, sm_advance.
  by destruct (match sm_def m with Some d => _ | None => _ end).
Qed.

Lemma advanced_properties e ms :
  map sm_nameProperty (map (sm_advance e) ms) = map sm_nameProperty ms.
Proof.
  induction ms as [|m ms IH]; cbn; [done|]. rewrite IH. f_equal.
  unfold sm_advance.
  by destruct (match sm_def m with Some d => _ | None => _ end).
Qed.

Lemma renderLoop_sameCast t s : sameCast s (renderLoop t s).
Proof.
  unfold renderLoop, advanceAnimations, advanceStateMachines, in_world.
  rewrite advanceEach_calls.
  open_sprite s.
  destruct (truthy_num f_lt), f_ab, f_rd, f_rv, f_en; cbn;
    repeat split; try done;
    first [apply advanced_names | apply advanced_properties].
Qed.

Lemma tick_sameCast t s : sameCast s (tick t s).
Proof.
  unfold tick, take_pending.
  destruct (pending (world s)) as [|d0 due0] eqn:Hp; [apply sameCast_refl|].
  rewrite <- Hp. clear Hp.
  match goal with |- context [fold_left _ _ ?x] =>
    apply (sameCast_trans s x); [repeat split; done|generalize x] end.
  induction (pending (world s)) as [|d due IH]; intros x; cbn.
  - apply sameCast_refl.
  - eapply sameCast_trans; [apply renderLoop_sameCast|apply IH].
Qed.

Lemma initRive_sameCast rive file s : sameCast s (initRive rive file s).
Proof. repeat split; done. Qed.

Lemma assign_sameCast v s : sameCast s (assign v s).
Proof. repeat split; done. Qed.

Lemma dispatchPointer_sameCast k p s : sameCast s (dispatchPointer k p s).
Proof. unfold dispatchPointer. destruct (pointerHandlers s); repeat split; done. Qed.

Lemma enable_sameCast s : sameCast s (enable s).
Proof. unfold enable. open_sprite s. destruct f_af, f_rv; repeat split; done. Qed.

Lemma disable_sameCast s : sameCast s (disable s).
Proof. unfold disable. open_sprite s. destruct f_af, f_rv; repeat split; done. Qed.

Lemma updateSize_sameCast s : sameCast s (final (updateSize s)).
Proof.
  unfold updateSize. open_sprite s.
  destruct f_ab, f_rv, f_rd, f_cv; repeat split; done.
Qed.

Lemma loadArtboard_sameCast arg s : sameCast s (final (loadArtboard arg s)).
Proof.
  unfold loadArtboard.
  match goal with |- context [updateSize ?x] =>
    apply (sameCast_trans s x); [|apply updateSize_sameCast] end.
  open_sprite s.
  destruct f_ab, f_fl as [file|], f_cv; cbn;
    try (destruct (if truthy_str arg then _ else _) as [d|]);
    repeat split; done.
Qed.

Lemma initInputFields_sameCast s : sameCast s (final (initInputFields s)).
Proof. unfold initInputFields. destruct (_rive s); repeat split; done. Qed.

Lemma setInputValue_sameCast name v s : sameCast s (setInputValue name v s).
Proof.
  unfold setInputValue. destruct (inputFields s !! name); [|apply sameCast_refl].
  destruct (decide _); repeat split; done.
Qed.

Lemma fireTrigger_sameCast name s : sameCast s (fireTrigger name s).
Proof.
  unfold fireTrigger. destruct (inputFields s !! name); [|apply sameCast_refl].
  destruct (decide _); repeat split; done.
Qed.

Lemma destroy_sameCast s : sameCast s (destroy s).
Proof.
  unfold destroy, disable, in_world. open_sprite s.
  destruct f_af, f_rv, f_ab, f_rd, f_fl; repeat split; done.
Qed.

Lemma Forall_filter_kept {A} (P : A -> Prop) (p : A -> bool) (l : list A) :
  Forall P l -> Forall P (List.filter p l).
Proof.
  induction 1 as [|x l Hx _ IH]; cbn; [constructor|].
  destruct (p x); [by constructor|done].
Qed.

Lemma unloadStateMachine_keepsMade name s : keepsMade s (unloadStateMachine name s).
Proof.
  unfold unloadStateMachine. rewrite dropMachines_filter.
  split; [repeat split; done|].
  intros [Hm Ha]. split; [|done]. cbn. by apply Forall_filter_kept.
Qed.

Lemma stopAnimation_keepsMade name s : keepsMade s (stopAnimation name s).
Proof.
  unfold stopAnimation. rewrite dropAnimations_filter.
  split; [repeat split; done|].
  intros [Hm Ha]. split; [done|]. cbn. by apply Forall_filter_kept.
Qed.

Lemma loadOneMachine_keepsMade name s : keepsMade s (final (loadOneMachine name s)).
Proof.
  unfold loadOneMachine.
  destruct (artboard s) as [ab|] eqn:Ha; [|apply keepsMade_refl].
  pose proof (unloadStateMachine_keepsMade name s) as Hu.
  destruct (_rive (unloadStateMachine name s)); [|exact Hu].
  eapply keepsMade_trans; [exact Hu|].
  unfold newStateMachineInstance. cbn.
  destruct (instantiateInputs _ _) as [ins w2]. cbn.
  split; [repeat split; done|].
  intros [Hm Han]. split; [|done]. cbn.
  apply Forall_app. split; [done|]. by constructor.
Qed.

Lemma playOneAnimation_keepsMade name s : keepsMade s (final (playOneAnimation name s)).
Proof.
  unfold playOneAnimation.
  destruct (artboard s) as [ab|] eqn:Ha; [|apply keepsMade_refl].
  pose proof (stopAnimation_keepsMade name s) as Hu.
  destruct (_rive (stopAnimation name s)); [|exact Hu].
  eapply keepsMade_trans; [exact Hu|].
  unfold newLinearAnimationInstance. cbn.
  split; [repeat split; done|].
  intros [Hm Han]. split; [done|]. cbn.
  apply Forall_app. split; [done|]. by constructor.
Qed.

Lemma loadStateMachine_keepsMade names s : keepsMade s (final (loadStateMachine names s)).
Proof.
  unfold loadStateMachine.
  destruct (artboard s) as [ab|], (_rive s); try apply keepsMade_refl.
  match goal with |- context [forEachName ?b ?l s] =>
    pose proof (forEachName_invariant keepsMade b
                  keepsMade_refl keepsMade_trans
                  loadOneMachine_keepsMade l s) as Hloop;
    destruct (forEachName b l s) as [s1|e s1] end; cbn in *; [|done].
  eapply keepsMade_trans; [exact Hloop|].
  apply sameCast_keepsMade, initInputFields_sameCast.
Qed.

Lemma playAnimation_keepsMade names s : keepsMade s (final (playAnimation names s)).
Proof.
  pose proof (forEachName_invariant keepsMade playOneAnimation
                keepsMade_refl keepsMade_trans
                playOneAnimation_keepsMade) as Hloop.
  unfold playAnimation.
  destruct (artboard s) as [ab|], (_rive s), names as [n|[|n l]];
    try apply Hloop; try apply keepsMade_refl;
    destruct (stateMachines s); try apply Hloop; apply keepsMade_refl.
Qed.

Lemma ready_keepsMade options s : keepsMade s (final (ready options s)).
Proof.
  unfold ready.
  repeat (apply andThen_invariant; [exact keepsMade_trans| |]).
  - apply sameCast_keepsMade, loadArtboard_sameCast.
  - intros x. apply loadStateMachine_keepsMade.
  - intros x. apply playAnimation_keepsMade.
  - intros x. apply sameCast_keepsMade.
    destruct (opt_autoPlay options); cbn; [apply enable_sameCast|].
    destruct (_rive x); repeat split; done.
Qed.

Lemma happens_keepsMade s s' : happens s s' -> keepsMade s s'.
Proof.
  destruct 1.
  - apply sameCast_keepsMade, initRive_sameCast.
  - apply sameCast_keepsMade, tick_sameCast.
  - apply sameCast_keepsMade, dispatchPointer_sameCast.
  - apply sameCast_keepsMade, enable_sameCast.
  - apply sameCast_keepsMade, disable_sameCast.
  - apply sameCast_keepsMade, loadArtboard_sameCast.
  - apply loadStateMachine_keepsMade.
  - apply unloadStateMachine_keepsMade.
  - apply playAnimation_keepsMade.
  - apply stopAnimation_keepsMade.
  - apply sameCast_keepsMade, updateSize_sameCast.
  - apply sameCast_keepsMade, initInputFields_sameCast.
  - apply sameCast_keepsMade, setInputValue_sameCast.
  - apply sameCast_keepsMade, fireTrigger_sameCast.
  - apply sameCast_keepsMade, destroy_sameCast.
  - apply ready_keepsMade.
  - apply sameCast_keepsMade, assign_sameCast.
Qed.

Lemma evolves_keepsMade s0 s : evolves s0 s -> keepsMade s0 s.
Proof.
  induction 1 as [|s s' _ IH Hstep]; [apply keepsMade_refl|].
  eapply keepsMade_trans; [exact IH|by apply happens_keepsMade].
Qed.

(** X16: interactivity is fixed at construction: whatever happens to a
    sprite afterwards (asset arrival, ticks, pointer events, any public
    method, any assignment of a setting), the pointer handlers are installed
    exactly when [interactive] was requested.  So a sprite built without
    [interactive] ignores every pointer event, and one built with it answers
    each event with exactly one call of the event's own kind, [pointerDown],
    [pointerUp] or [pointerMove], on every active state machine, in list
    order, with the two coordinates of the translated point. *)
Theorem interactivity_is_fixed (options : RiveOptions) (host : Q * Q -> Q * Q)
  (s : RiveSprite) :
  evolves (construct options host) s ->
  pointerHandlers s = opt_interactive options /\
  (opt_interactive options = false -> forall k p, dispatchPointer k p s = s) /\
  (opt_interactive options = true ->
   forall p,
     since s (dispatchPointer PointerDown p s)
     = map (fun m => SMPointerDown (sm_handle m)
                       (fst (translatePoint p s)) (snd (translatePoint p s)))
           (stateMachines s) /\
     since s (dispatchPointer PointerUp p s)
     = map (fun m => SMPointerUp (sm_handle m)
                       (fst (translatePoint p s)) (snd (translatePoint p s)))
           (stateMachines s) /\
     since s (dispatchPointer PointerMove p s)
     = map (fun m => SMPointerMove (sm_handle m)
                       (fst (translatePoint p s)) (snd (translatePoint p s)))
           (stateMachines s)).
Proof.
  intros Hev. destruct (evolves_keepsMade _ _ Hev) as ((Hp & _) & _).
  assert (Hp0 : pointerHandlers (construct options host) = opt_interactive options).
  { unfold construct, initEvents. by destruct (opt_interactive options). }
  rewrite Hp0 in Hp.
  split; [done|]. split.
  - intros Hi k p. unfold dispatchPointer. by rewrite Hp, Hi.
  - intros Hi p. unfold dispatchPointer. rewrite Hp, Hi.
    repeat split; by apply since_app.
Qed.

Lemma stillSprite_evolves : evolves (construct plainOptions hostIdentity) stillSprite.
Proof.
  exact (evolves_step _ _ _
           (evolves_step _ _ _ (evolves_here _)
              (happens_initRive stretchEngine sceneFile _))
           (happens_ready plainOptions _)).
Qed.

Lemma busySprite_evolves : evolves (construct busyOptions hostIdentity) busySprite.
Proof.
  exact (evolves_step _ _ _
           (evolves_step _ _ _ (evolves_here _)
              (happens_initRive stretchEngine sceneFile _))
           (happens_ready busyOptions _)).
Qed.

(** The sprite built with default options ignores a pointer event; the busy
    sprite, built interactive, passes it to its two machines, whose handles
    are 2 and 6. *)
Lemma interactivity_is_fixed_witness :
  (evolves (construct plainOptions hostIdentity) stillSprite /\
   pointerHandlers stillSprite = false /\
   dispatchPointer PointerDown (3, 4) stillSprite = stillSprite) /\
  (evolves (construct busyOptions hostIdentity) busySprite /\
   pointerHandlers busySprite = true /\
   since busySprite (dispatchPointer PointerDown (3, 4) busySprite)
   = [SMPointerDown 2 (fst (translatePoint (3, 4) busySprite))
                      (snd (translatePoint (3, 4) busySprite));
      SMPointerDown 6 (fst (translatePoint (3, 4) busySprite))
                      (snd (translatePoint (3, 4) busySprite))]).
Proof.
  split.
  - split; [exact stillSprite_evolves|].
    destruct (interactivity_is_fixed plainOptions hostIdentity stillSprite
                stillSprite_evolves) as (Hp & Hoff & _).
    split; [exact Hp|]. by apply Hoff.
  - split; [exact busySprite_evolves|].
    destruct (interactivity_is_fixed busyOptions hostIdentity busySprite
                busySprite_evolves) as (Hp & _ & Hon).
    split; [exact Hp|].
    destruct (Hon eq_refl (3, 4)) as (Hd & _). rewrite Hd.
    reflexivity.
Defined.

(** X23: in every state that a constructed sprite can evolve into, every
    active state machine and every active animation is as the engine's
    constructor made it, without a [name] property: nothing else ever enters
    the two lists.  So on such a sprite [unloadStateMachine] and
    [stopAnimation] find nothing to remove: whatever the name, either call
    leaves the sprite exactly as it was and deletes nothing. *)
Theorem instances_are_engine_made (options : RiveOptions) (host : Q * Q -> Q * Q)
  (s : RiveSprite) :
  evolves (construct options host) s ->
  engineMade s /\
  (forall name, unloadStateMachine name s = s) /\
  (forall name, stopAnimation name s = s).
Proof.
  intros Hev. destruct (evolves_keepsMade _ _ Hev) as [_ Hu].
  assert (Hmade : engineMade s).
  { apply Hu. unfold engineMade, construct, initEvents.
    destruct (opt_interactive options); cbn; split; constructor. }
  split; [done|]. destruct Hmade as [Hm Ha]. split; intros name.
  - by apply unloadStateMachine_engineMade.
  - by apply stopAnimation_engineMade.
Qed.

Lemma instances_are_engine_made_witness :
  evolves (construct busyOptions hostIdentity) busySprite /\
  map sm_name (stateMachines busySprite) = ["Idle"%string; "Blink"%string] /\
  map an_name (animations busySprite) = ["idle"%string] /\
  unloadStateMachine "Idle" busySprite = busySprite /\
  stopAnimation "idle" busySprite = busySprite.
Proof.
  split; [exact busySprite_evolves|].
  split; [reflexivity|]. split; [reflexivity|].
  destruct (instances_are_engine_made busyOptions hostIdentity busySprite
              busySprite_evolves) as (_ & Hu & Hs).
  split; [apply Hu|apply Hs].
Defined.

(** ** Who touches the schedule *)

Lemma sameSchedule_refl s : sameSchedule s s.
Proof. repeat split; done. Qed.

Lemma sameSchedule_trans a b c :
  sameSchedule a b -> sameSchedule b c -> sameSchedule a c.
Proof.
  intros (A1 & A2 & A3 & A4 & A5 & A6) (B1 & B2 & B3 & B4 & B5 & B6).
  repeat split; congruence.
Qed.

Lemma besidesMachines_refl s : besidesMachines s s.
Proof. repeat split; done. Qed.

Lemma besidesMachines_trans a b c :
  besidesMachines a b -> besidesMachines b c -> besidesMachines a c.
Proof.
  intros (A1 & A2 & A3) (B1 & B2 & B3).
  split; [by apply (sameSchedule_trans a b c)|split; congruence].
Qed.

Lemma besidesAnimations_refl s : besidesAnimations s s.
Proof. repeat split; done. Qed.

Lemma besidesAnimations_trans a b c :
  besidesAnimations a b -> besidesAnimations b c -> besidesAnimations a c.
Proof.
  intros (A1 & A2 & A3 & A4) (B1 & B2 & B3 & B4).
  split; [by apply (sameSchedule_trans a b c)|repeat split; congruence].
Qed.

Lemma updateSize_sameSchedule s : sameSchedule s (final (updateSize s)).
Proof.
  unfold updateSize. open_sprite s.
  destruct f_ab, f_rv, f_rd, f_cv; repeat split; done.
Qed.

Lemma loadArtboard_sameSchedule arg s : sameSchedule s (final (loadArtboard arg s)).
Proof.
  unfold loadArtboard.
  match goal with |- context [updateSize ?x] =>
    apply (sameSchedule_trans s x); [|apply updateSize_sameSchedule] end.
  open_sprite s.
  destruct f_ab, f_fl as [file|], f_cv; cbn;
    try (destruct (if truthy_str arg then _ else _) as [d|]);
    repeat split; done.
Qed.

Lemma unloadStateMachine_besides name s : besidesMachines s (unloadStateMachine name s).
Proof.
  unfold unloadStateMachine. destruct (dropMachines name (stateMachines s)).
  repeat split; done.
Qed.

Lemma stopAnimation_besides name s : besidesAnimations s (stopAnimation name s).
Proof.
  unfold stopAnimation. destruct (dropAnimations name (animations s)).
  repeat split; done.
Qed.

Lemma loadOneMachine_besides name s : besidesMachines s (final (loadOneMachine name s)).
Proof.
  unfold loadOneMachine.
  destruct (artboard s) as [ab|] eqn:Ha; [|apply besidesMachines_refl].
  pose proof (unloadStateMachine_besides name s) as Hu.
  destruct (_rive (unloadStateMachine name s)); [|exact Hu].
  eapply besidesMachines_trans; [exact Hu|].
  unfold newStateMachineInstance. cbn.
  match goal with |- context [instantiateInputs ?ds ?w0] =>
    pose proof (instantiateInputs_world ds w0) as (_ & Hp & Hn & _);
    destruct (instantiateInputs ds w0) as [ins w2] end.
  cbn in *. repeat split; done.
Qed.

Lemma playOneAnimation_besides name s : besidesAnimations s (final (playOneAnimation name s)).
Proof.
  unfold playOneAnimation.
  destruct (artboard s) as [ab|] eqn:Ha; [|apply besidesAnimations_refl].
  pose proof (stopAnimation_besides name s) as Hu.
  destruct (_rive (stopAnimation name s)); [|exact Hu].
  eapply besidesAnimations_trans; [exact Hu|].
  repeat split; done.
Qed.

Lemma loadStateMachine_besides names s : besidesMachines s (final (loadStateMachine names s)).
Proof.
  unfold loadStateMachine.
  destruct (artboard s) as [ab|], (_rive s); try apply besidesMachines_refl.
  match goal with |- context [forEachName ?b ?l s] =>
    pose proof (forEachName_invariant besidesMachines b
                  besidesMachines_refl besidesMachines_trans
                  loadOneMachine_besides l s) as Hloop;
    destruct (forEachName b l s) as [s1|e s1] end; cbn in *; [|done].
  eapply besidesMachines_trans; [exact Hloop|].
  unfold initInputFields. destruct (_rive s1); repeat split; done.
Qed.

Lemma playAnimation_besides names s : besidesAnimations s (final (playAnimation names s)).
Proof.
  pose proof (forEachName_invariant besidesAnimations playOneAnimation
                besidesAnimations_refl besidesAnimations_trans
                playOneAnimation_besides) as Hloop.
  unfold playAnimation.
  destruct (artboard s) as [ab|], (_rive s), names as [n|[|n l]];
    try apply Hloop; try apply besidesAnimations_refl;
    destruct (stateMachines s); try apply Hloop; apply besidesAnimations_refl.
Qed.

(** X19: only the frame driver schedules.  Loading an artboard, loading or
    unloading state machines, playing or stopping animations, resizing,
    writing inputs, firing triggers and pointer events never request or
    cancel a frame and never touch the running flag, the held handle or the
    time baseline, whether they return or fail.  Loading state machines
    leaves the animations alone, and playing animations leaves the state
    machines and the registry alone. *)
Theorem only_the_driver_schedules (s : RiveSprite) :
  (forall arg, sameSchedule s (final (loadArtboard arg s))) /\
  sameSchedule s (final (updateSize s)) /\
  (forall names, sameSchedule s (final (loadStateMachine names s)) /\
                 animations (final (loadStateMachine names s)) = animations s) /\
  (forall name, sameSchedule s (unloadStateMachine name s)) /\
  (forall names, sameSchedule s (final (playAnimation names s)) /\
                 stateMachines (final (playAnimation names s)) = stateMachines s /\
                 inputFields (final (playAnimation names s)) = inputFields s) /\
  (forall name, sameSchedule s (stopAnimation name s)) /\
  (forall name v, sameSchedule s (setInputValue name v s)) /\
  (forall name, sameSchedule s (fireTrigger name s)) /\
  (forall k p, sameSchedule s (dispatchPointer k p s)).
Proof.
  split; [intros; apply loadArtboard_sameSchedule|].
  split; [apply updateSize_sameSchedule|].
  split; [intros names; destruct (loadStateMachine_besides names s) as (H1 & H2 & _); done|].
  split; [intros name; by destruct (unloadStateMachine_besides name s)|].
  split; [intros names; destruct (playAnimation_besides names s) as (H1 & H2 & _ & H3); done|].
  split; [intros name; by destruct (stopAnimation_besides name s)|].
  split; [|split].
  - intros name v. unfold setInputValue.
    destruct (inputFields s !! name); [|apply sameSchedule_refl].
    destruct (decide _); repeat split; done.
  - intros name. unfold fireTrigger.
    destruct (inputFields s !! name); [|apply sameSchedule_refl].
    destruct (decide _); repeat split; done.
  - intros k p. unfold dispatchPointer.
    destruct (pointerHandlers s); repeat split; done.
Qed.

(** ** What the constructor sets up by default *)

Lemma map_nil_inv {A B} (f : A -> B) (l : list A) : map f l = [] -> l = [].
Proof. by destruct l. Qed.

Lemma fresh_sprite options host rive file :
  let s1 := initRive rive file (construct options host) in
  consistent s1 /\ artboard s1 = None /\ _file s1 = Some file /\
  _rive s1 = Some rive /\ stateMachines s1 = [] /\ animations s1 = [] /\
  _animFrame s1 = 0%nat /\ _enabled s1 = false /\
  pending (world s1) = [] /\ nextFrame (world s1) = 1%nat /\
  nextHandle (world s1) = 1%nat.
Proof.
  cbn. split; [apply consistent_initRive, consistent_construct|].
  unfold construct, initEvents. destruct (opt_interactive options); repeat split; done.
Qed.

(** The last act of the constructor's continuation, on a sprite that has
    scheduled nothing yet. *)
Lemma first_frame_request options s :
  _animFrame s = 0%nat -> _enabled s = false -> pending (world s) = [] ->
  nextFrame (world s) = 1%nat -> is_Some (_rive s) ->
  exists x,
    (if opt_autoPlay options then Returns (enable s)
     else match _rive s with
          | Some _ => Returns (in_world (fun w => snd (requestAnimationFrame w)) s)
          | None => Returns s
          end) = Returns x /\
    artboard x = artboard s /\ stateMachines x = stateMachines s /\
    animations x = animations s /\
    _enabled x = opt_autoPlay options /\
    pending (world x) = [1%nat] /\
    _animFrame x = (if opt_autoPlay options then 1 else 0)%nat.
Proof.
  intros Ha He Hp Hn [r Hr]. unfold enable. open_sprite s. subst.
  destruct (opt_autoPlay options); cbn;
    (eexists; split; [reflexivity|]); cbn; rewrite ?Hp, ?Hn; repeat split; done.
Qed.

(** X20: a sprite constructed without naming an artboard, a state machine or
    an animation, on a file that has a first artboard, gets that artboard;
    if the artboard has state machines it runs the first of them and no
    animation, otherwise it plays the artboard's first animation if there is
    one.  Exactly one frame is requested, so the scene is drawn once; with
    [autoPlay] the sprite is enabled and holds that request's handle, without
    it the sprite stays disabled and holds none. *)
Theorem constructor_defaults (options : RiveOptions) (host : Q * Q -> Q * Q)
  (rive : RiveCanvas) (file : File) (d0 : ArtboardDef) :
  opt_artboard options = None ->
  opt_stateMachine options = noNames ->
  opt_animation options = noNames ->
  defaultArtboard file = Some d0 ->
  exists s,
    newRiveSprite options host rive file = Returns s /\
    option_map ab_def (artboard s) = Some d0 /\
    machineNames s
    = match abd_stateMachines d0 with
      | m :: _ => [smd_name m]
      | [] => []
      end /\
    animationNames s
    = match abd_stateMachines d0, abd_animations d0 with
      | [], a :: _ => [and_name a]
      | _, _ => []
      end /\
    _enabled s = opt_autoPlay options /\
    pending (world s) = [1%nat] /\
    _animFrame s = (if opt_autoPlay options then 1 else 0)%nat.
Proof.
  intros Hoa Hom Hon Hd0.
  unfold newRiveSprite, ready. rewrite Hoa, Hom, Hon.
  destruct (fresh_sprite options host rive file)
    as (Hc1 & Ha1 & Hf1 & Hr1 & Hm1 & Hn1 & Haf1 & He1 & Hp1 & Hnf1 & Hnh1).
  set (s1 := initRive rive file (construct options host)) in *.
  (* the artboard *)
  destruct (loadArtboard_installs None s1 file rive d0 Hc1 Hf1 Hr1 Hd0)
    as (s2 & E2 & Ha2 & _).
  pose proof (loadArtboard_sameCast None s1) as (_ & Hm2 & Hn2 & _ & _).
  pose proof (loadArtboard_sameSchedule None s1) as (Haf2 & He2 & _ & Hp2 & Hnf2 & Hr2).
  rewrite E2 in *. cbn [final andThen] in *.
  unfold machineNames, animationNames in Hm2, Hn2. rewrite Hm1 in Hm2. rewrite Hn1 in Hn2.
  apply map_nil_inv in Hm2, Hn2. rewrite Hnh1 in Ha2.
  set (ab := {| ab_handle := 1; ab_def := d0 |}) in *.
  (* the state machine *)
  assert (H3 : exists s3, loadStateMachine noNames s2 = Returns s3 /\
             machineNames s3 = match abd_stateMachines d0 with
                               | m :: _ => [smd_name m] | [] => [] end).
  { destruct (abd_stateMachines d0) as [|m0 dms] eqn:Hdms.
    - unfold loadStateMachine, noNames, stateMachineByIndex. rewrite Ha2, Hr2, Hr1.
      cbn. rewrite Hdms. cbn. unfold initInputFields. rewrite Hr2, Hr1.
      eexists. split; [reflexivity|]. unfold machineNames. cbn. by rewrite Hm2.
    - assert (Hby : stateMachineByName ab (smd_name m0) = Some m0).
      { unfold stateMachineByName. cbn. rewrite Hdms. cbn. by rewrite String.eqb_refl. }
      destruct (loadStateMachine_named s2 ab rive (smd_name m0) Ha2
                  ltac:(congruence)) as (s3 & m & E3 & L3 & D3 & _).
      rewrite Hby in D3.
      exists s3. split.
      + rewrite <- E3. unfold loadStateMachine, noNames, stateMachineByIndex.
        rewrite Ha2. cbn. by rewrite Hdms.
      + unfold machineNames. rewrite L3, Hm2. cbn. unfold sm_name. by rewrite D3. }
  destruct H3 as (s3 & E3 & Hm3).
  pose proof (loadStateMachine_besides noNames s2)
    as ((Haf3 & He3 & _ & Hp3 & Hnf3 & Hr3) & Hn3 & Ha3).
  rewrite E3 in *. cbn [final andThen] in *.
  (* the animation *)
  assert (H4 : exists s4, playAnimation noNames s3 = Returns s4 /\
             animationNames s4 = match abd_stateMachines d0, abd_animations d0 with
                                 | [], a :: _ => [and_name a] | _, _ => [] end).
  { destruct (abd_stateMachines d0) as [|m0 dms] eqn:Hdms.
    - assert (Hsm3 : stateMachines s3 = []) by (by apply (map_nil_inv sm_name)).
      destruct (abd_animations d0) as [|a0 das] eqn:Hdas.
      + unfold playAnimation, noNames, animationByIndex. rewrite Ha3, Ha2, Hsm3.
        cbn. rewrite Hdas. cbn. eexists. split; [reflexivity|].
        unfold animationNames. by rewrite Hn3, Hn2.
      + assert (Hby : animationByName ab (and_name a0) = Some a0).
        { unfold animationByName. cbn. rewrite Hdas. cbn. by rewrite String.eqb_refl. }
        destruct (playAnimation_named s3 ab rive (and_name a0)
                    ltac:(congruence) ltac:(congruence))
          as (s4 & a & E4 & L4 & N4 & _).
        rewrite Hby in N4.
        exists s4. split.
        * rewrite <- E4. unfold playAnimation, noNames, animationByIndex.
          rewrite Ha3, Ha2, Hsm3. cbn. by rewrite Hdas.
        * unfold animationNames. rewrite L4, Hn3, Hn2. cbn.
          unfold an_name. by rewrite N4.
    - exists s3. split.
      + apply (playAnimation_machine_driven s3 ab); [congruence|].
        intros Hnil. unfold machineNames in Hm3. by rewrite Hnil in Hm3.
      + unfold animationNames. by rewrite Hn3, Hn2. }
  destruct H4 as (s4 & E4 & Hn4).
  pose proof (playAnimation_besides noNames s3)
    as ((Haf4 & He4 & _ & Hp4 & Hnf4 & Hr4) & Hm4 & Ha4 & _).
  rewrite E4 in *. cbn [final andThen] in *.
  (* the first frame *)
  destruct (first_frame_request options s4) as (x & Ex & La & Lm & Ln & Le & Lp & Laf);
    try congruence.
  { rewrite Hr4, Hr3, Hr2, Hr1. eauto. }
  rewrite Ex. exists x. split; [reflexivity|].
  split; [by rewrite La, Ha4, Ha3, Ha2|].
  split; [unfold machineNames in *; by rewrite Lm, Hm4|].
  split; [unfold animationNames in *; by rewrite Ln|].
  done.
Qed.

Lemma constructor_defaults_witness :
  defaultArtboard sceneFile = Some mainArtboard /\
  exists s,
    newRiveSprite plainOptions hostIdentity stretchEngine sceneFile = Returns s /\
    option_map ab_def (artboard s) = Some mainArtboard /\
    machineNames s
    = match abd_stateMachines mainArtboard with
      | m :: _ => [smd_name m]
      | [] => []
      end /\
    animationNames s
    = match abd_stateMachines mainArtboard, abd_animations mainArtboard with
      | [], a :: _ => [and_name a]
      | _, _ => []
      end /\
    _enabled s = opt_autoPlay plainOptions /\
    pending (world s) = [1%nat] /\
    _animFrame s = (if opt_autoPlay plainOptions then 1 else 0)%nat.
Proof.
  split; [reflexivity|].
  apply (constructor_defaults plainOptions hostIdentity stretchEngine sceneFile
           mainArtboard); reflexivity.
Defined.

(** ** The invariant along a history *)

Lemma happens_consistent s s' : happens s s' -> consistent s -> consistent s'.
Proof.
  destruct 1; intros Hc.
  - by apply consistent_initRive.
  - eapply sameResources_consistent; [apply tick_sameResources|exact Hc].
  - eapply sameResources_consistent; [apply dispatchPointer_sameResources|exact Hc].
  - eapply sameResources_consistent; [apply enable_sameResources|exact Hc].
  - eapply sameResources_consistent; [apply disable_sameResources|exact Hc].
  - by apply consistent_loadArtboard.
  - by apply consistent_loadStateMachine.
  - eapply sameResources_consistent; [apply unloadStateMachine_sameResources|exact Hc].
  - eapply sameResources_consistent; [apply playAnimation_sameResources|exact Hc].
  - eapply sameResources_consistent; [apply stopAnimation_sameResources|exact Hc].
  - by apply consistent_updateSize.
  - by apply consistent_initInputFields.
  - eapply sameResources_consistent; [apply setInputValue_sameResources|exact Hc].
  - eapply sameResources_consistent; [apply fireTrigger_sameResources|exact Hc].
  - eapply sameResources_consistent; [apply destroy_sameResources|exact Hc].
  - by apply consistent_ready.
  - revert Hc. apply sameResources_consistent. repeat split; done.
Qed.

(** X21: whatever happens to a constructed sprite, in whatever order (the
    asset arriving, the constructor's continuation, ticks, pointer events,
    any public method, returning or failing, any assignment of a setting),
    its state stays consistent: an
    artboard is only ever held together with the file it came from; the
    file, the canvas, the renderer and the engine are there together; and the
    registry is empty as long as the engine is missing. *)
Theorem every_state_is_consistent (options : RiveOptions) (host : Q * Q -> Q * Q)
  (s : RiveSprite) :
  evolves (construct options host) s -> consistent s.
Proof.
  induction 1 as [|s s' _ IH Hstep]; [apply consistent_construct|].
  by apply (happens_consistent s s').
Qed.

Lemma every_state_is_consistent_witness :
  evolves (construct plainOptions hostIdentity) stillSprite /\
  consistent stillSprite.
Proof.
  split; [exact stillSprite_evolves|].
  apply (every_state_is_consistent plainOptions hostIdentity stillSprite).
  exact stillSprite_evolves.
Defined.

(** ** The alignment comes with the first artboard *)

Lemma sameStage_refl s : sameStage s s.
Proof. split; [apply sameResources_refl|split; done]. Qed.

Lemma sameStage_trans a b c : sameStage a b -> sameStage b c -> sameStage a c.
Proof.
  intros (A1 & A2 & A3) (B1 & B2 & B3).
  split; [by apply (sameResources_trans a b c)|].
  split; [congruence|auto].
Qed.

Lemma sameStage_keepsStaged s s' : sameStage s s' -> keepsStaged s s'.
Proof.
  intros (Hres & Hal & Hms) [Hc [H1 H2]].
  split; [by apply (sameResources_consistent s s')|].
  pose proof Hres as (Hab & _).
  unfold alignedWhenLoaded. rewrite Hal, Hab. split; [done|auto].
Qed.

Lemma keepsStaged_refl s : keepsStaged s s.
Proof. by intros H. Qed.

Lemma keepsStaged_trans a b c : keepsStaged a b -> keepsStaged b c -> keepsStaged a c.
Proof. unfold keepsStaged. auto. Qed.

Lemma advanced_none e ms : map (sm_advance e) ms <> [] -> ms <> [].
Proof. by destruct ms. Qed.

Lemma renderLoop_sameStage t s : sameStage s (renderLoop t s).
Proof.
  split; [apply renderLoop_sameResources|].
  unfold renderLoop, advanceAnimations, advanceStateMachines, in_world.
  rewrite advanceEach_calls.
  open_sprite s.
  destruct (truthy_num f_lt), f_ab, f_rd, f_rv, f_en; cbn;
    split; try done; apply advanced_none.
Qed.

Lemma tick_sameStage t s : sameStage s (tick t s).
Proof.
  unfold tick, take_pending.
  destruct (pending (world s)) as [|d0 due0] eqn:Hp; [apply sameStage_refl|].
  rewrite <- Hp. clear Hp.
  match goal with |- context [fold_left _ _ ?x] =>
    apply (sameStage_trans s x); [repeat split; done|generalize x] end.
  induction (pending (world s)) as [|d due IH]; intros x; cbn.
  - apply sameStage_refl.
  - eapply sameStage_trans; [apply renderLoop_sameStage|apply IH].
Qed.

Lemma dispatchPointer_sameStage k p s : sameStage s (dispatchPointer k p s).
Proof. unfold dispatchPointer. destruct (pointerHandlers s); repeat split; done. Qed.

Lemma enable_sameStage s : sameStage s (enable s).
Proof.
  split; [apply enable_sameResources|].
  unfold enable. open_sprite s. destruct f_af, f_rv; split; done.
Qed.

Lemma disable_sameStage s : sameStage s (disable s).
Proof.
  split; [apply disable_sameResources|].
  unfold disable. open_sprite s. destruct f_af, f_rv; split; done.
Qed.

Lemma unloadStateMachine_sameStage name s : sameStage s (unloadStateMachine name s).
Proof.
  split; [apply unloadStateMachine_sameResources|].
  unfold unloadStateMachine. rewrite dropMachines_filter. cbn.
  split; [done|]. by destruct (stateMachines s).
Qed.

Lemma stopAnimation_sameStage name s : sameStage s (stopAnimation name s).
Proof.
  split; [apply stopAnimation_sameResources|].
  unfold stopAnimation. destruct (dropAnimations name (animations s)). split; done.
Qed.

Lemma playOneAnimation_sameStage name s : sameStage s (final (playOneAnimation name s)).
Proof.
  unfold playOneAnimation.
  destruct (artboard s) as [ab|] eqn:Ha; [|apply sameStage_refl].
  pose proof (stopAnimation_sameStage name s) as Hu.
  destruct (_rive (stopAnimation name s)); [|exact Hu].
  eapply sameStage_trans; [exact Hu|]. repeat split; done.
Qed.

Lemma playAnimation_sameStage names s : sameStage s (final (playAnimation names s)).
Proof.
  pose proof (forEachName_invariant sameStage playOneAnimation
                sameStage_refl sameStage_trans
                playOneAnimation_sameStage) as Hloop.
  unfold playAnimation.
  destruct (artboard s) as [ab|], (_rive s), names as [n|[|n l]];
    try apply Hloop; try apply sameStage_refl;
    destruct (stateMachines s); try apply Hloop; apply sameStage_refl.
Qed.

Lemma setInputValue_sameStage name v s : sameStage s (setInputValue name v s).
Proof.
  unfold setInputValue. destruct (inputFields s !! name); [|apply sameStage_refl].
  destruct (decide _); repeat split; done.
Qed.

Lemma fireTrigger_sameStage name s : sameStage s (fireTrigger name s).
Proof.
  unfold fireTrigger. destruct (inputFields s !! name); [|apply sameStage_refl].
  destruct (decide _); repeat split; done.
Qed.

Lemma destroy_sameStage s : sameStage s (destroy s).
Proof.
  split; [apply destroy_sameResources|].
  unfold destroy, disable, in_world. open_sprite s.
  destruct f_af, f_rv, f_ab, f_rd, f_fl; split; done.
Qed.

Lemma initInputFields_keepsStaged s : keepsStaged s (final (initInputFields s)).
Proof.
  intros [Hc Hal]. split; [by apply consistent_initInputFields|].
  unfold initInputFields. by destruct (_rive s).
Qed.

(** [updateSize] caches an alignment whenever there is an artboard. *)
Lemma updateSize_keepsStaged s : keepsStaged s (final (updateSize s)).
Proof.
  intros [Hc [H1 H2]]. split; [by apply consistent_updateSize|].
  unfold updateSize, alignedWhenLoaded in *. open_sprite s.
  destruct f_ab, f_rv, f_rd, f_cv; cbn; split; eauto.
Qed.

Lemma loadArtboard_keepsStaged arg s : keepsStaged s (final (loadArtboard arg s)).
Proof.
  intros [Hc Hal]. split; [by apply consistent_loadArtboard|].
  destruct Hc as (C1 & C2 & C3). destruct Hal as [H1 H2].
  unfold loadArtboard, updateSize, alignedWhenLoaded in *. open_sprite s.
  destruct f_fl as [file|]; cbn in *.
  - destruct C2 as ([cv Hcv] & [r Hr] & [rv Hrv]); [eauto|]. subst.
    destruct f_ab; cbn;
      destruct (if truthy_str arg then _ else _) as [d|]; cbn;
      (split; first [by eauto | intros [x Hx]; discriminate]).
  - destruct f_ab as [old|]; [destruct C1 as [x Hx]; [eauto|discriminate]|].
    destruct f_cv; cbn; (split; by eauto).
Qed.

Lemma loadOneMachine_keepsStaged name s : keepsStaged s (final (loadOneMachine name s)).
Proof.
  intros [Hc [H1 H2]].
  split.
  { revert Hc. apply sameResources_consistent, loadOneMachine_sameResources. }
  unfold loadOneMachine.
  destruct (artboard s) as [ab|] eqn:Ha.
  2: { unfold alignedWhenLoaded. cbn. rewrite Ha. split; [|exact H2].
       intros [x Hx]. discriminate. }
  assert (Hal : is_Some (_aligned s)) by (apply H1; eauto).
  unfold unloadStateMachine.
  destruct (dropMachines name (stateMachines s)) as [kept dels].
  open_sprite s. destruct f_rv; cbn.
  - unfold newStateMachineInstance. cbn.
    destruct (instantiateInputs _ _) as [ins w2]. cbn. split; done.
  - split; done.
Qed.

Lemma loadStateMachine_keepsStaged names s : keepsStaged s (final (loadStateMachine names s)).
Proof.
  unfold loadStateMachine.
  destruct (artboard s) as [ab|], (_rive s); try apply keepsStaged_refl.
  match goal with |- context [forEachName ?b ?l s] =>
    pose proof (forEachName_invariant keepsStaged b
                  keepsStaged_refl keepsStaged_trans
                  loadOneMachine_keepsStaged l s) as Hloop;
    destruct (forEachName b l s) as [s1|e s1] end; cbn in *; [|done].
  eapply keepsStaged_trans; [exact Hloop|apply initInputFields_keepsStaged].
Qed.

Lemma ready_keepsStaged options s : keepsStaged s (final (ready options s)).
Proof.
  unfold ready.
  repeat (apply andThen_invariant; [exact keepsStaged_trans| |]).
  - apply loadArtboard_keepsStaged.
  - intros x. apply loadStateMachine_keepsStaged.
  - intros x. apply sameStage_keepsStaged, playAnimation_sameStage.
  - intros x. apply sameStage_keepsStaged.
    destruct (opt_autoPlay options); cbn; [apply enable_sameStage|].
    destruct (_rive x); repeat split; done.
Qed.

Lemma happens_keepsStaged s s' : happens s s' -> keepsStaged s s'.
Proof.
  destruct 1.
  - intros [Hc Hal]. split; [by apply consistent_initRive|exact Hal].
  - apply sameStage_keepsStaged, tick_sameStage.
  - apply sameStage_keepsStaged, dispatchPointer_sameStage.
  - apply sameStage_keepsStaged, enable_sameStage.
  - apply sameStage_keepsStaged, disable_sameStage.
  - apply loadArtboard_keepsStaged.
  - apply loadStateMachine_keepsStaged.
  - apply sameStage_keepsStaged, unloadStateMachine_sameStage.
  - apply sameStage_keepsStaged, playAnimation_sameStage.
  - apply sameStage_keepsStaged, stopAnimation_sameStage.
  - apply updateSize_keepsStaged.
  - apply initInputFields_keepsStaged.
  - apply sameStage_keepsStaged, setInputValue_sameStage.
  - apply sameStage_keepsStaged, fireTrigger_sameStage.
  - apply sameStage_keepsStaged, destroy_sameStage.
  - apply ready_keepsStaged.
  - apply sameStage_keepsStaged. repeat split; done.
Qed.

(** X24: the alignment comes with the first artboard and is never dropped.
    In every state a constructed sprite can evolve into, an artboard, or an
    active state machine, is only ever there together with a cached
    alignment.  So [translatePoint] falls back to the identity only on a
    sprite with no state machine, where a pointer event makes no call at
    all. *)
Theorem alignment_comes_first (options : RiveOptions) (host : Q * Q -> Q * Q)
  (s : RiveSprite) :
  evolves (construct options host) s ->
  (is_Some (artboard s) -> is_Some (_aligned s)) /\
  (stateMachines s <> [] -> is_Some (_aligned s)) /\
  (_aligned s = None ->
   stateMachines s = [] /\
   forall k p, translatePoint p s = toLocal s p /\
               since s (dispatchPointer k p s) = []).
Proof.
  intros Hev.
  assert (Hst : staged s).
  { induction Hev as [|s s' _ IH Hstep].
    - split; [apply consistent_construct|].
      unfold alignedWhenLoaded, construct, initEvents.
      destruct (opt_interactive options); cbn; split;
        first [intros [x Hx]; discriminate | done].
    - by apply (happens_keepsStaged s s'). }
  destruct Hst as [_ [H1 H2]].
  split; [exact H1|]. split; [exact H2|].
  intros Hnone.
  assert (Hms : stateMachines s = []).
  { destruct (stateMachines s) as [|m ms] eqn:E; [done|].
    destruct H2 as [x Hx]; [done|]. congruence. }
  split; [exact Hms|]. intros k p.
  split; [by apply translatePoint_unaligned|].
  unfold dispatchPointer, onpointer. destruct (pointerHandlers s).
  - rewrite Hms. cbn. unfold since, in_world, calls. cbn.
    by rewrite app_nil_r, drop_all.
  - unfold since. by rewrite drop_all.
Qed.

Lemma alignment_comes_first_witness :
  evolves (construct busyOptions hostIdentity) bareSprite /\
  _aligned bareSprite = None /\
  stateMachines bareSprite = [] /\
  translatePoint (3, 4) bareSprite = (3, 4) /\
  since bareSprite (dispatchPointer PointerDown (3, 4) bareSprite) = [].
Proof.
  assert (Hev : evolves (construct busyOptions hostIdentity) bareSprite)
    by apply evolves_here.
  destruct (alignment_comes_first busyOptions hostIdentity bareSprite Hev)
    as (_ & _ & H).
  destruct (H eq_refl) as [Hms Hp].
  destruct (Hp PointerDown (3, 4)) as [Ht Hd].
  split; [exact Hev|]. split; [reflexivity|]. split; [exact Hms|].
  split; [exact Ht|exact Hd].
Defined.

(** X22: without an [onStateChange] callback a frame step notifies nobody,
    whatever the machines report; it still advances every active machine,
    once each and in list order. *)
Theorem silent_without_callback (time : Q) (s : RiveSprite) (ab : Artboard) :
  consistent s ->
  artboard s = Some ab ->
  onStateChange s = false ->
  notifications (since s (renderLoop time s)) = [] /\
  machinesAdvanced (since s (renderLoop time s))
  = map (fun m => (sm_handle m, elapsedAt time s)) (stateMachines s).
Proof.
  intros Hc Ha Hcb.
  destruct (consistent_renderer s ab Hc Ha) as [r Hr].
  split.
  - rewrite (step_notifications time s ab r Ha Hr), Hcb.
    induction (stateMachines s) as [|m ms IH]; [done|].
    cbn [flat_map]. rewrite notifications_app, IH. unfold machineCalls.
    by destruct (sm_changed _).
  - rewrite renderLoop_since. unfold stepCalls, reschedule. rewrite Ha, Hr.
    rewrite !machinesAdvanced_app, machineCalls_advanced.
    replace (machinesAdvanced (flat_map _ (animations s))) with (@nil (nat * Q)).
    + cbn. destruct (_rive s), (_enabled s); cbn; by rewrite ?app_nil_r.
    + induction (animations s) as [|a l IH]; [done|]. cbn. exact IH.
Qed.

Lemma silent_without_callback_witness :
  consistent stillSprite /\
  artboard stillSprite = Some {| ab_handle := 1; ab_def := mainArtboard |} /\
  onStateChange stillSprite = false /\
  notifications (since stillSprite (renderLoop 1000 stillSprite)) = [] /\
  machinesAdvanced (since stillSprite (renderLoop 1000 stillSprite))
  = map (fun m => (sm_handle m, elapsedAt 1000 stillSprite)) (stateMachines stillSprite).
Proof.
  split; [exact stillSprite_consistent|].
  split; [reflexivity|]. split; [reflexivity|].
  apply (silent_without_callback 1000 stillSprite
           {| ab_handle := 1; ab_def := mainArtboard |}).
  - exact stillSprite_consistent.
  - reflexivity.
  - reflexivity.
Defined.

(** ** The properties above, on the small scene *)

(** The busy sprite holds engine-made instances only: nothing is unloaded.
    On [namedSprite], whose instances carry their names, [Idle] goes. *)
Lemma unloadStateMachine_removes_witness :
  Forall (fun m => sm_nameProperty m = None) (stateMachines busySprite) /\
  unloadStateMachine "Idle" busySprite = busySprite /\
  map sm_name (stateMachines (unloadStateMachine "Idle" namedSprite))
  = ["Blink"%string] /\
  since namedSprite (unloadStateMachine "Idle" namedSprite) = [SMDelete 2].
Proof.
  assert (Hmade : Forall (fun m => sm_nameProperty m = None) (stateMachines busySprite))
    by (vm_compute; repeat constructor).
  split; [exact Hmade|].
  split.
  - destruct (unloadStateMachine_removes "Idle" busySprite) as (_ & _ & _ & H).
    by apply H.
  - destruct (unloadStateMachine_removes "Idle" namedSprite) as (H1 & H2 & _).
    rewrite H1, H2. split; vm_compute; reflexivity.
Defined.

Lemma stopAnimation_removes_witness :
  Forall (fun a => an_nameProperty a = None) (animations busySprite) /\
  stopAnimation "idle" busySprite = busySprite /\
  animations (stopAnimation "idle" namedSprite) = [] /\
  since namedSprite (stopAnimation "idle" namedSprite) = [AnimDelete 7].
Proof.
  assert (Hmade : Forall (fun a => an_nameProperty a = None) (animations busySprite))
    by (vm_compute; repeat constructor).
  split; [exact Hmade|].
  split.
  - destruct (stopAnimation_removes "idle" busySprite) as (_ & _ & _ & H).
    by apply H.
  - destruct (stopAnimation_removes "idle" namedSprite) as (H1 & H2 & _).
    rewrite H1, H2. split; vm_compute; reflexivity.
Defined.

(** The running sprite drew its last frame at time 1000: the step at time
    1016 advances the artboard by 16 milliseconds. *)
Lemma steps_measure_time_witness :
  consistent busySprite /\
  artboard busySprite = Some {| ab_handle := 1; ab_def := mainArtboard |} /\
  ~ 1000 == 0 /\
  advances (since (renderLoop 1000 busySprite)
                  (renderLoop 1016 (renderLoop 1000 busySprite)))
  = [(1016 - 1000) / 1000].
Proof.
  assert (Hnz : ~ 1000 == 0) by (intro H; vm_compute in H; discriminate).
  split; [exact busySprite_consistent|].
  split; [vm_compute; reflexivity|].
  split; [exact Hnz|].
  destruct (steps_measure_time 1000 1016 busySprite
              {| ab_handle := 1; ab_def := mainArtboard |}
              busySprite_consistent ltac:(vm_compute; reflexivity))
    as (_ & H & _).
  by apply H.
Defined.
